(** * Verification of the dependency resolver and lock model of jx

    Shallow embedding of
    - [src/src/commands/add.rs]  : [parse_dependency_coordinate] and the
                                   line edits of [add_to_jx_config],
                                   [add_to_maven], [add_to_gradle]
    - [src/src/dependency.rs]    : [Dependency], [resolve_dependencies]
    - [src/src/resolve.rs]       : [DependencyResolver]
    - [src/src/lock.rs]          : [LockFile]

    Rust [String]s are modelled as Stdlib [string]s (their UTF-8 bytes);
    every separator the code splits or joins on is the ASCII byte [':'].
    A Rust [HashMap] is modelled as a stdpp [gmap]; where the code iterates
    over a map, the iteration order is an explicit list argument, since the
    standard [HashMap] fixes no order. *)

From Stdlib Require Import String Ascii Sorted.
From stdpp Require Import base gmap sets list strings.

Open Scope string_scope.

(* ------------------------------------------------------------------ *)
(** ** Results (the [anyhow::Result] of the code) *)

Inductive result (A E : Type) : Type :=
| Ok : A -> result A E
| Err : E -> result A E.
Arguments Ok {A E} _.
Arguments Err {A E} _.

(* ------------------------------------------------------------------ *)
(** ** [commands/add.rs]: coordinate parsing *)

Module Add.

(** [coordinate.split(':')]: Rust's [str::split] yields one more piece than
    there are separators, empty pieces included ([""] splits to [[""]]). *)
Fixpoint split_colon (s : string) : list string :=
  match s with
  | EmptyString => [""]
  | String c rest =>
      let parts := split_colon rest in
      if Ascii.eqb c ":" then "" :: parts
      else match parts with
           | p :: ps => String c p :: ps
           | [] => [String c ""]
           end
  end.

Record DependencyInfo := {
  group_id : string;
  artifact_id : string;
  version : option string
}.

(** The error of the [_] arm: the invalid-coordinate message. *)
Inductive ParseError := InvalidCoordinate.

Definition parse_dependency_coordinate (coordinate : string)
    : result DependencyInfo ParseError :=
  let parts := split_colon coordinate in
  match length parts with
  | 2 => Ok {| group_id := nth 0 parts ""; artifact_id := nth 1 parts "";
               version := None |}
  | 3 => Ok {| group_id := nth 0 parts ""; artifact_id := nth 1 parts "";
               version := Some (nth 2 parts "") |}
  | _ => Err InvalidCoordinate
  end.

(** Number of [':'] bytes of a string. *)
Fixpoint colons (s : string) : nat :=
  match s with
  | EmptyString => 0
  | String c rest => (if Ascii.eqb c ":" then 1 else 0) + colons rest
  end.

End Add.

(* ------------------------------------------------------------------ *)
(** ** [commands/add.rs]: the edits of the project files *)

Module AddEdit.
Import Add.

(** The line edits of [add_to_jx_config], [add_to_maven] and
    [add_to_gradle], on the [Vec<String>] of lines read from the file
    (the reading, [lines()], and the writing, [join("\n")], are not
    modelled).  [str::trim] of the standard library is a parameter:
    the statements hold for every trimming function. *)

Definition quote : string := String "034"%char EmptyString.
Definition newline : string := String "010"%char EmptyString.

(** [Vec::insert(index, element)]: [None] when [index > len], where the
    call panics. *)
Fixpoint vec_insert {A} (index : nat) (element : A) (l : list A) : option (list A) :=
  match index, l with
  | 0, _ => Some (element :: l)
  | S i, x :: l' => option_map (cons x) (vec_insert i element l')
  | S _, [] => None
  end.

(** The error of the two [return Err(..)] statements: the section is
    missing. *)
Inductive AddError := MissingDependencies.

Section Edit.
Variable trim : string -> string.

(** The [for (i, line) in lines.iter().enumerate()] loop that stops at the
    first line whose trimmed text is [header]: [Some i] when
    [in_dependencies] is set, with [_dependencies_start = i]. *)
Fixpoint find_section (header : string) (lines : list string) (i : nat) : option nat :=
  match lines with
  | [] => None
  | line :: lines' =>
      if String.eqb (trim line) header then Some i
      else find_section header lines' (S i)
  end.

Definition jx_dep_line (dep_info : DependencyInfo) : string :=
  match version dep_info with
  | Some version =>
      group_id dep_info ++ ":" ++ artifact_id dep_info ++ " = " ++ quote ++ version ++ quote
  | None =>
      group_id dep_info ++ ":" ++ artifact_id dep_info ++ " = " ++ quote ++ "*" ++ quote
  end.

(** [add_to_jx_config] from [let mut lines] on; [None] is a panic. *)
Definition add_to_jx_config_lines (lines : list string) (dep_info : DependencyInfo)
    : option (list string) :=
  let '(lines, dependencies_start) :=
    match find_section "[dependencies]" lines 0 with
    | Some i => (lines, i)
    | None =>
        let lines := (lines ++ ["[dependencies]"])%list in
        (lines, length lines - 1)
    end in
  vec_insert (dependencies_start + 1) (jx_dep_line dep_info) lines.

(** The loop of [add_to_maven]: a [<dependencies>] line (re)starts the
    section, the first [</dependencies>] line after one ends the loop.
    The state is [(in_dependencies, _dependencies_start, dependencies_end)]. *)
Fixpoint maven_scan (lines : list string) (i : nat) (st : bool * nat * nat)
    : bool * nat * nat :=
  match lines with
  | [] => st
  | line :: lines' =>
      let '(in_dependencies, start, dependencies_end) := st in
      if String.eqb (trim line) "<dependencies>" then
        maven_scan lines' (S i) (true, i, dependencies_end)
      else if in_dependencies && String.eqb (trim line) "</dependencies>" then
        (in_dependencies, start, i)
      else maven_scan lines' (S i) st
  end.

Definition maven_dep_xml (dep_info : DependencyInfo) (scope : string) : string :=
  "        <dependency>" ++ newline ++
  "            <groupId>" ++ group_id dep_info ++ "</groupId>" ++ newline ++
  "            <artifactId>" ++ artifact_id dep_info ++ "</artifactId>" ++ newline ++
  "            <version>" ++ default "*" (version dep_info) ++ "</version>" ++ newline ++
  "            <scope>" ++ scope ++ "</scope>" ++ newline ++
  "        </dependency>".

(** [add_to_maven] from [let mut lines] on; [None] is a panic. *)
Definition add_to_maven_lines (lines : list string) (dep_info : DependencyInfo)
    (scope : string) : option (result (list string) AddError) :=
  let '(in_dependencies, _, dependencies_end) := maven_scan lines 0 (false, 0, 0) in
  if negb in_dependencies then Some (Err MissingDependencies)
  else option_map Ok (vec_insert dependencies_end (maven_dep_xml dep_info scope) lines).

Definition gradle_dep_line (dep_info : DependencyInfo) (scope : string) : string :=
  match version dep_info with
  | Some version =>
      "    " ++ scope ++ " '" ++ group_id dep_info ++ ":" ++ artifact_id dep_info ++
      ":" ++ version ++ "'"
  | None =>
      "    " ++ scope ++ " '" ++ group_id dep_info ++ ":" ++ artifact_id dep_info ++ "'"
  end.

(** [add_to_gradle] from [let mut lines] on; [None] is a panic. *)
Definition add_to_gradle_lines (lines : list string) (dep_info : DependencyInfo)
    (scope : string) : option (result (list string) AddError) :=
  match find_section "dependencies {" lines 0 with
  | None => Some (Err MissingDependencies)
  | Some dependencies_start =>
      option_map Ok (vec_insert (dependencies_start + 1) (gradle_dep_line dep_info scope) lines)
  end.

End Edit.
End AddEdit.

(* ------------------------------------------------------------------ *)
(** ** [dependency.rs]: the [Dependency] value *)

Module Dep.

Inductive DependencyScope := Compile | Runtime | Test | Provided | System.

Record Exclusion := { ex_group_id : string; ex_artifact_id : string }.

Record Dependency := {
  group_id : string;
  artifact_id : string;
  version : string;
  scope : DependencyScope;
  classifier : option string;
  exclusions : list Exclusion;
  optional : bool
}.

(** [Dependency::new]: compile scope, no classifier, no exclusions. *)
Definition new (g a v : string) : Dependency :=
  {| group_id := g; artifact_id := a; version := v; scope := Compile;
     classifier := None; exclusions := []; optional := false |}.

Definition with_scope (d : Dependency) (s : DependencyScope) : Dependency :=
  {| group_id := group_id d; artifact_id := artifact_id d; version := version d;
     scope := s; classifier := classifier d; exclusions := exclusions d;
     optional := optional d |}.

(** [format!("{}:{}:{}", group_id, artifact_id, version)] *)
Definition coordinate (d : Dependency) : string :=
  group_id d ++ ":" ++ artifact_id d ++ ":" ++ version d.

End Dep.

(* ------------------------------------------------------------------ *)
(** ** [dependency.rs]: [resolve_dependencies] and [DependencyNode] *)

Module DepTree.
Import Dep.

#[warnings="-register-all"]
Inductive DependencyNode := {
  dependency : Dependency;
  children : list DependencyNode;
  depth : nat
}.

(** [DependencyNode::new] *)
Definition node_new (dependency : Dependency) (depth : nat) : DependencyNode :=
  {| dependency := dependency; children := []; depth := depth |}.

(** [build_dependency_tree]: marks the coordinate visited and returns a
    node without children (the transitive step is a TODO in the code);
    [all_dependencies] is unused.  Returns the result and the map
    [visited] after the call; the [anyhow] message type is [string]. *)
Definition build_dependency_tree (dependency : Dependency)
    (all_dependencies : list Dependency) (visited : gset string) (depth : nat)
    : result DependencyNode string * gset string :=
  let visited := {[coordinate dependency]} ∪ visited in
  let node := node_new dependency depth in
  (Ok node, visited).

(** The loop of [resolve_dependencies] over the slice [all]. *)
Fixpoint resolve_loop (all deps : list Dependency) (visited : gset string)
    : result (list DependencyNode) string :=
  match deps with
  | [] => Ok []
  | dep :: deps' =>
      if decide (coordinate dep ∈ visited) then resolve_loop all deps' visited
      else
        match build_dependency_tree dep all visited 0 with
        | (Err e, _) => Err e
        | (Ok node, visited) =>
            match resolve_loop all deps' visited with
            | Err e => Err e
            | Ok nodes => Ok (node :: nodes)
            end
        end
  end.

Definition resolve_dependencies (dependencies : list Dependency)
    : result (list DependencyNode) string :=
  resolve_loop dependencies dependencies ∅.

End DepTree.

(* ------------------------------------------------------------------ *)
(** ** [resolve.rs]: [DependencyResolver] *)

Module Resolve.
Import Dep.

(** The only error [resolve_dependency] raises: the cycle message naming
    the coordinate key. *)
Inductive ResolveError := Cycle (key : string).

(** The resolver's fields.  [expansions] is ghost instrumentation, not a
    field of the Rust struct: the keys for which
    [resolve_transitive_dependencies] was called, in call order. *)
Record DependencyResolver := {
  resolved : gmap string Dependency;
  unresolved : gset string;
  in_progress : gset string;
  expansions : list string
}.

Definition new : DependencyResolver :=
  {| resolved := ∅; unresolved := ∅; in_progress := ∅; expansions := [] |}.

Definition set_resolved (s : DependencyResolver) m : DependencyResolver :=
  {| resolved := m; unresolved := unresolved s; in_progress := in_progress s;
     expansions := expansions s |}.
Definition set_in_progress (s : DependencyResolver) p : DependencyResolver :=
  {| resolved := resolved s; unresolved := unresolved s; in_progress := p;
     expansions := expansions s |}.
Definition log_expansion (s : DependencyResolver) k : DependencyResolver :=
  {| resolved := resolved s; unresolved := unresolved s;
     in_progress := in_progress s; expansions := (expansions s ++ [k])%list |}.

(** An [async fn(&mut self, ..) -> Result<A>]: the state the call leaves
    behind is kept also when it fails. *)
Definition M (A : Type) := DependencyResolver -> result A ResolveError * DependencyResolver.

(** [resolve_transitive_dependencies(&self, ..)]: the stub of the code,
    [Ok(Vec::new())]; only the ghost log records the call. *)
Definition resolve_transitive_dependencies (dependency : Dependency)
    : M (list Dependency) :=
  fun s => (Ok [], log_expansion s (coordinate dependency)).

Definition resolve_dependency (dependency : Dependency) : M (list Dependency) :=
  fun s =>
    let key := coordinate dependency in
    match resolved s !! key with
    | Some r => (Ok [r], s)
    | None =>
        if decide (key ∈ in_progress s) then (Err (Cycle key), s)
        else
          let s1 := set_in_progress s ({[key]} ∪ in_progress s) in
          match resolve_transitive_dependencies dependency s1 with
          | (Err e, s2) => (Err e, s2)
          | (Ok transitive_deps, s2) =>
              let s3 := set_resolved s2 (<[key := dependency]> (resolved s2)) in
              let s4 := set_in_progress s3 (in_progress s3 ∖ {[key]}) in
              (Ok (dependency :: transitive_deps), s4)
          end
    end.

Fixpoint resolve_dependencies (dependencies : list Dependency)
    : M (list Dependency) :=
  fun s =>
    match dependencies with
    | [] => (Ok [], s)
    | dep :: rest =>
        match resolve_dependency dep s with
        | (Err e, s1) => (Err e, s1)
        | (Ok r, s1) =>
            match resolve_dependencies rest s1 with
            | (Err e, s2) => (Err e, s2)
            | (Ok rs, s2) => (Ok (r ++ rs)%list, s2)
            end
        end
    end.

(** [topological_sort]: the recursion over transitive keys is a TODO in
    the code, so a call visits [key] alone.  The state is
    [(visited, temp_visited, order)]. *)
Definition topological_sort (key : string)
    (st : gset string * gset string * list string)
    : result unit ResolveError * (gset string * gset string * list string) :=
  let '(visited, temp_visited, order) := st in
  if decide (key ∈ temp_visited) then (Err (Cycle key), st)
  else if decide (key ∈ visited) then (Ok tt, st)
  else
    let temp_visited := {[key]} ∪ temp_visited in
    let temp_visited := temp_visited ∖ {[key]} in
    let visited := {[key]} ∪ visited in
    (Ok tt, (visited, temp_visited, (order ++ [key])%list)).

(** [get_resolution_order], given [self.resolved.keys()] in the map's
    iteration order; a failed sort is reported and skipped. *)
Definition get_resolution_order_in (keys : list string) : list string :=
  let '(_, _, order) :=
    fold_left
      (fun st key =>
         let '(visited, _, _) := st in
         if decide (key ∈ visited) then st
         else snd (topological_sort key st))
      keys (∅, ∅, [])
  in rev order.

Definition get_resolution_order (s : DependencyResolver) : list string :=
  get_resolution_order_in (map fst (map_to_list (resolved s))).

Inductive ConflictType := VersionConflict | ScopeConflict | OptionalConflict.

Record DependencyConflict := {
  c_group_id : string;
  c_artifact_id : string;
  c_versions : list string;
  conflict_type : ConflictType
}.

(** One iteration of the loop of [detect_conflicts]; the state is
    [(conflicts, version_map)]. *)
Definition detect_step
    (st : list DependencyConflict * gmap string (gmap string string))
    (dep : Dependency) : list DependencyConflict * gmap string (gmap string string) :=
  let '(conflicts, version_map) := st in
  let key := group_id dep ++ ":" ++ artifact_id dep in
  (* entry(key).or_insert_with(HashMap::new) *)
  let versions := default ∅ (version_map !! key) in
  match versions !! version dep with
  | Some existing_version =>
      let version_map := <[key := versions]> version_map in
      if decide (existing_version <> version dep) then
        ((conflicts ++ [{| c_group_id := group_id dep;
                          c_artifact_id := artifact_id dep;
                          c_versions := [existing_version; version dep];
                          conflict_type := VersionConflict |}])%list, version_map)
      else (conflicts, version_map)
  | None =>
      (conflicts, <[key := <[version dep := version dep]> versions]> version_map)
  end.

(** [detect_conflicts], given [self.resolved.values()] in iteration order. *)
Definition detect_conflicts_in (values : list Dependency) : list DependencyConflict :=
  fst (fold_left detect_step values ([], ∅)).

Definition detect_conflicts (s : DependencyResolver) : list DependencyConflict :=
  detect_conflicts_in (map snd (map_to_list (resolved s))).

(** *** [get_dependency_tree] *)

#[warnings="-register-all"]
Inductive DependencyTreeNode := {
  dependency : Dependency;
  children : list DependencyTreeNode;
  depth : nat
}.

(** [build_tree_node]: the loop over transitive keys is a TODO in the
    code, so the node has no children. *)
Definition build_tree_node (dep : Dependency) (visited : gset string) (depth : nat)
    : DependencyTreeNode * gset string :=
  let visited := {[coordinate dep]} ∪ visited in
  ({| dependency := dep; children := []; depth := depth |}, visited).

Fixpoint tree_loop (values : list Dependency) (visited : gset string)
    : list DependencyTreeNode :=
  match values with
  | [] => []
  | dep :: values' =>
      let key := coordinate dep in
      if decide (key ∈ visited) then tree_loop values' visited
      else
        let '(node, visited) := build_tree_node dep visited 0 in
        node :: tree_loop values' visited
  end.

(** [get_dependency_tree], given [self.resolved.values()] in iteration order. *)
Definition get_dependency_tree_in (values : list Dependency) : list DependencyTreeNode :=
  tree_loop values ∅.

Definition get_dependency_tree (s : DependencyResolver) : list DependencyTreeNode :=
  get_dependency_tree_in (map snd (map_to_list (resolved s))).

End Resolve.

(* ------------------------------------------------------------------ *)
(** ** [lock.rs]: [LockFile] *)

Module Lock.

Record LockedDependency := {
  group_id : string;
  artifact_id : string;
  version : string;
  classifier : option string;
  scope : string;
  checksum : string;
  url : string;
  dependencies : list string
}.

Record LockMetadata := {
  created_at : string;
  updated_at : string;
  total_dependencies : nat;
  total_size : N
}.

(** [version] of the Rust struct is [lf_version] here, apart from the
    field of [LockedDependency]. *)
Record LockFile := {
  lf_version : string;
  lf_dependencies : gmap string LockedDependency;
  metadata : LockMetadata
}.

Definition coordinate (d : LockedDependency) : string :=
  group_id d ++ ":" ++ artifact_id d ++ ":" ++ version d.

(** [LockFile::new()]; [now] is the value of [chrono::Utc::now().to_rfc3339()].
    The code reads the clock once per field, so the two stamps may differ
    by the time between the reads; here both are [now], and no statement
    below depends on their being equal. *)
Definition new (now : string) : LockFile :=
  {| lf_version := "1.0"; lf_dependencies := ∅;
     metadata := {| created_at := now; updated_at := now;
                    total_dependencies := 0; total_size := 0%N |} |}.

Definition add_dependency (now : string) (lf : LockFile) (dep : LockedDependency)
    : LockFile :=
  let key := group_id dep ++ ":" ++ artifact_id dep ++ ":" ++ version dep in
  let deps := <[key := dep]> (lf_dependencies lf) in
  {| lf_version := lf_version lf; lf_dependencies := deps;
     metadata := {| created_at := created_at (metadata lf); updated_at := now;
                    total_dependencies := size deps;
                    total_size := total_size (metadata lf) |} |}.

(** Returns [(removed, self after the call)]. *)
Definition remove_dependency (now : string) (lf : LockFile) (g a v : string)
    : bool * LockFile :=
  let key := g ++ ":" ++ a ++ ":" ++ v in
  let removed := bool_decide (is_Some (lf_dependencies lf !! key)) in
  let deps := delete key (lf_dependencies lf) in
  if removed then
    (true, {| lf_version := lf_version lf; lf_dependencies := deps;
              metadata := {| created_at := created_at (metadata lf);
                             updated_at := now; total_dependencies := size deps;
                             total_size := total_size (metadata lf) |} |})
  else
    (* [HashMap::remove] of an absent key leaves the map as it was *)
    (false, {| lf_version := lf_version lf; lf_dependencies := deps;
               metadata := metadata lf |}).

(** [get_dependency]: [self.dependencies.get(&key)]. *)
Definition get_dependency (lf : LockFile) (g a v : string) : option LockedDependency :=
  lf_dependencies lf !! (g ++ ":" ++ a ++ ":" ++ v).

(** [has_dependency]: [self.dependencies.contains_key(&key)]. *)
Definition has_dependency (lf : LockFile) (g a v : string) : bool :=
  bool_decide (is_Some (lf_dependencies lf !! (g ++ ":" ++ a ++ ":" ++ v))).

Definition set_checksum (d : LockedDependency) (c : string) : LockedDependency :=
  {| group_id := group_id d; artifact_id := artifact_id d; version := version d;
     classifier := classifier d; scope := scope d; checksum := c; url := url d;
     dependencies := dependencies d |}.

Definition set_url (d : LockedDependency) (u : string) : LockedDependency :=
  {| group_id := group_id d; artifact_id := artifact_id d; version := version d;
     classifier := classifier d; scope := scope d; checksum := checksum d; url := u;
     dependencies := dependencies d |}.

Definition touch (m : LockMetadata) (now : string) : LockMetadata :=
  {| created_at := created_at m; updated_at := now;
     total_dependencies := total_dependencies m; total_size := total_size m |}.

(** [update_checksum]: the entry is changed in place through [get_mut];
    no path of the function returns an error, the [anyhow] message type
    is kept as [string]. *)
Definition update_checksum (now : string) (lf : LockFile) (g a v checksum : string)
    : result unit string * LockFile :=
  let key := g ++ ":" ++ a ++ ":" ++ v in
  match lf_dependencies lf !! key with
  | Some dep =>
      (Ok tt, {| lf_version := lf_version lf;
                 lf_dependencies := <[key := set_checksum dep checksum]> (lf_dependencies lf);
                 metadata := touch (metadata lf) now |})
  | None => (Ok tt, lf)
  end.

Definition update_url (now : string) (lf : LockFile) (g a v url : string)
    : result unit string * LockFile :=
  let key := g ++ ":" ++ a ++ ":" ++ v in
  match lf_dependencies lf !! key with
  | Some dep =>
      (Ok tt, {| lf_version := lf_version lf;
                 lf_dependencies := <[key := set_url dep url]> (lf_dependencies lf);
                 metadata := touch (metadata lf) now |})
  | None => (Ok tt, lf)
  end.

(** The invariant of claim C10. *)
Definition count_ok (lf : LockFile) : Prop :=
  total_dependencies (metadata lf) = size (lf_dependencies lf).

#[warnings="-register-all"]
Inductive DependencyTreeNode := {
  dependency : LockedDependency;
  children : list DependencyTreeNode;
  depth : nat
}.

(** The [for dep_coord in &dep.dependencies] loop of [build_tree_node];
    [build] is the recursive call.  [visited] is the
    [HashMap<String, bool>] of the code, used only through [insert] and
    [contains_key], i.e. a set. *)
Fixpoint add_children
    (build : LockedDependency -> gset string -> nat -> option (DependencyTreeNode * gset string))
    (deps : gmap string LockedDependency) (depth : nat)
    (edges : list string) (visited : gset string)
    : option (list DependencyTreeNode * gset string) :=
  match edges with
  | [] => Some ([], visited)
  | dep_coord :: edges' =>
      match deps !! dep_coord with
      | Some child_dep =>
          if decide (dep_coord ∈ visited) then add_children build deps depth edges' visited
          else
            match build child_dep visited (S depth) with
            | None => None
            | Some (child_node, visited) =>
                match add_children build deps depth edges' visited with
                | None => None
                | Some (nodes, visited) => Some (child_node :: nodes, visited)
                end
            end
      | None => add_children build deps depth edges' visited
      end
  end.

(** [build_tree_node]; [fuel] bounds the recursion depth and [None]
    stands for a recursion that does not stop. *)
Fixpoint build_tree_node (fuel : nat) (deps : gmap string LockedDependency)
    (dep : LockedDependency) (visited : gset string) (depth : nat)
    : option (DependencyTreeNode * gset string) :=
  match fuel with
  | 0 => None
  | S fuel' =>
      let visited := {[coordinate dep]} ∪ visited in
      match add_children (build_tree_node fuel' deps) deps depth (dependencies dep) visited with
      | None => None
      | Some (nodes, visited) =>
          Some ({| dependency := dep; children := nodes; depth := depth |}, visited)
      end
  end.

(** [get_dependency_tree], given [&self.dependencies] in iteration order. *)
Fixpoint tree_loop (fuel : nat) (deps : gmap string LockedDependency)
    (entries : list (string * LockedDependency)) (visited : gset string)
    : option (list DependencyTreeNode) :=
  match entries with
  | [] => Some []
  | (key, dep) :: entries' =>
      if decide (key ∈ visited) then tree_loop fuel deps entries' visited
      else
        match build_tree_node fuel deps dep visited 0 with
        | None => None
        | Some (node, visited) =>
            match tree_loop fuel deps entries' visited with
            | None => None
            | Some nodes => Some (node :: nodes)
            end
        end
  end.

(** A bound on the nesting of [build_tree_node] calls: with [n] entries
    in the map and [m] entries in the iteration list, a run that stops
    nests at most [1 + n * (m + n + 1)] calls
    ([LockFuelProofs.tree_fuel_enough]): along a chain of nested calls no
    pair (edge key, size of [visited]) comes back.  So [None] under this
    bound is a recursion of the code that does not stop. *)
Definition tree_fuel (deps : gmap string LockedDependency)
    (entries : list (string * LockedDependency)) : nat :=
  S (size deps * S (length entries + size deps)).

Definition get_dependency_tree_in (lf : LockFile)
    (entries : list (string * LockedDependency)) : option (list DependencyTreeNode) :=
  tree_loop (tree_fuel (lf_dependencies lf) entries) (lf_dependencies lf) entries ∅.

Definition get_dependency_tree (lf : LockFile) : option (list DependencyTreeNode) :=
  get_dependency_tree_in lf (map_to_list (lf_dependencies lf)).

(** Coordinates of a forest in pre-order. *)
Fixpoint flatten (n : DependencyTreeNode) : list string :=
  coordinate (dependency n) ::
  (fix go (l : list DependencyTreeNode) : list string :=
     match l with [] => [] | c :: l' => flatten c ++ go l' end)%list (children n).

Definition flatten_forest (f : list DependencyTreeNode) : list string :=
  concat (map flatten f).

(** All nodes of a tree, in pre-order. *)
Fixpoint nodes (n : DependencyTreeNode) : list DependencyTreeNode :=
  n :: (fix go (l : list DependencyTreeNode) : list DependencyTreeNode :=
          match l with [] => [] | c :: l' => nodes c ++ go l' end)%list (children n).

(** The keys of a lock map are the coordinates of their entries, as
    [add_dependency] keeps them. *)
Definition keys_are_coordinates (deps : gmap string LockedDependency) : Prop :=
  forall k d, deps !! k = Some d -> coordinate d = k.

(** *** [LockFile::load] *)

(** The error [load] propagates with [?]; the read errors of
    [fs::read_to_string] are not modelled (contents are read as given). *)
Inductive LoadError (TomlError : Type) :=
| Toml (e : TomlError).
Arguments Toml {TomlError} _.

Section Load.
(** [toml::from_str::<LockFile>], a function of the external [toml]
    crate: a file is malformed exactly when it rejects the contents. *)
Variable TomlError : Type.
Variable from_str : string -> result LockFile TomlError.

(** [fs] maps the paths of existing files to their contents;
    [path.exists()] is [fs !! path <> None]. *)
Definition load (fs : gmap string string) (now : string) (path : string)
    : result LockFile (LoadError TomlError) :=
  match fs !! path with
  | Some content =>
      match from_str content with
      | Ok lock_file => Ok lock_file
      | Err e => Err (Toml e)
      end
  | None => Ok (new now)
  end.
End Load.

End Lock.

(* ------------------------------------------------------------------ *)
(** ** Sample inputs and the predicates the proofs use *)

Module ResolveSpecs.
Import Dep Resolve.

(** Sample coordinates used by the concrete checks. *)
Definition ab1 : Dependency := Dep.new "a" "b" "1.0".
Definition ab2 : Dependency := Dep.new "a" "b" "2.0".
Definition xy1 : Dependency := Dep.new "X" "Y" "1.0".

(** In every inner map of [version_map] a version is mapped to itself:
    [detect_step] only ever inserts [version := version]. *)
Definition versions_self (vm : gmap string (gmap string string)) : Prop :=
  forall key vs v x, vm !! key = Some vs -> vs !! v = Some x -> x = v.

Definition cyc_state : DependencyResolver :=
  {| resolved := ∅; unresolved := ∅; in_progress := {["X:Y:1.0"]};
     expansions := [] |}.

(** What [resolve_dependencies] keeps true when entered with an empty
    [in_progress]: the keys expanded so far are the memoised keys, each
    expanded once. *)
Definition memo_inv (s : DependencyResolver) : Prop :=
  in_progress s = ∅ /\ NoDup (expansions s) /\
  forall k, k ∈ expansions s <-> is_Some (resolved s !! k).

(** Every entry of a map is stored under its own coordinate key. *)
Definition keyed (m : gmap string Dependency) : Prop :=
  forall k e, m !! k = Some e -> coordinate e = k.

(** The first requested spec with coordinate [k]. *)
Definition first_spec (specs : list Dependency) (k : string) : option Dependency :=
  find (fun d => String.eqb (coordinate d) k) specs.

(** A node of the resolver's tree with no children, at depth 0. *)
Definition leaf (d : Dependency) : DependencyTreeNode :=
  {| dependency := d; children := []; depth := 0 |}.

End ResolveSpecs.

Module DepTreeSpecs.
Import Dep.

(** The first dependency of a slice with coordinate [c]. *)
Definition first_with (deps : list Dependency) (c : string) : option Dependency :=
  find (fun d => String.eqb (coordinate d) c) deps.

End DepTreeSpecs.

Module AddEditSpecs.
Import Add.

(** A sample [trim]: strips the ASCII spaces at both ends. *)
Fixpoint drop_spaces (l : list ascii) : list ascii :=
  match l with
  | " "%char :: l' => drop_spaces l'
  | _ => l
  end.

Definition trim_spaces (s : string) : string :=
  string_of_list_ascii (rev (drop_spaces (rev (drop_spaces (list_ascii_of_string s))))).

Definition sample_info : DependencyInfo :=
  {| group_id := "org.slf4j"; artifact_id := "slf4j-api"; version := Some "2.0.9" |}.

End AddEditSpecs.

Module LockSpecs.
Import Lock.

Definition sample_dep : LockedDependency :=
  {| group_id := "g"; artifact_id := "a"; version := "1.0"; classifier := None;
     scope := "compile"; checksum := ""; url := ""; dependencies := [] |}.

(** A parser that rejects everything stands for a rejected file. *)
Definition reject_all (s : string) : result LockFile string := Err "expected `=`".

(** What one call of [build_tree_node] returns on a lock map [D] whose
    keys are coordinates: a node whose pre-order coordinates are fresh,
    distinct keys, all added to [visited]. *)
Definition build_post (D : gmap string LockedDependency) (dep : LockedDependency) (V : gset string)
    (r : option (DependencyTreeNode * gset string)) : Prop :=
  exists n V', r = Some (n, V') /\
    (forall x, x ∈ V' <-> x ∈ V \/ x ∈ flatten n) /\
    NoDup (flatten n) /\
    (forall x, x ∈ flatten n -> x ∈ dom D /\ x ∉ V) /\
    coordinate dep ∈ flatten n.

(** A diamond: [g:a:1] requires [g:b:1] and [g:c:1], which both require
    [g:d:1]. *)
Definition locked (a : string) (edges : list string) : LockedDependency :=
  {| group_id := "g"; artifact_id := a; version := "1"; classifier := None;
     scope := "compile"; checksum := ""; url := ""; dependencies := edges |}.

(** A lock file that already holds [g:b:1]. *)
Definition one_entry : LockFile := add_dependency "t0" (new "t0") (locked "b" []).

Definition diamond : LockFile :=
  fold_left (add_dependency "t0")
    [locked "a" ["g:b:1"; "g:c:1"]; locked "b" ["g:d:1"];
     locked "c" ["g:d:1"]; locked "d" []]
    (new "t0").

(** A lock file as [load] may return it: the entry of coordinate [g:p:1]
    is stored under the key [g:a:1], and [g:b:1] and [g:c:1] point back to
    that key.  [visited] holds coordinates, so the walk enters [g:a:1]
    again until both other keys are visited. *)
Definition aliased : LockFile :=
  {| lf_version := "1.0";
     lf_dependencies := {[ "g:a:1" := locked "p" ["g:b:1"; "g:c:1"];
                           "g:b:1" := locked "b" ["g:a:1"];
                           "g:c:1" := locked "c" ["g:a:1"] ]};
     metadata := metadata (new "t0") |}.

(** One iteration order of its map. *)
Definition aliased_order : list (string * LockedDependency) :=
  [("g:a:1", locked "p" ["g:b:1"; "g:c:1"]); ("g:b:1", locked "b" ["g:a:1"]);
   ("g:c:1", locked "c" ["g:a:1"])].

(** The reading of claim C9: every node of the forest shows, as a child,
    each of its edges that names an entry of the lock file. *)
Definition every_edge_shown (deps : gmap string LockedDependency)
    (forest : list DependencyTreeNode) : Prop :=
  forall i n, concat (map nodes forest) !! i = Some n ->
  forall e, e ∈ dependencies (dependency n) -> is_Some (deps !! e) ->
  exists c, c ∈ children n /\ coordinate (dependency c) = e.

(** Every child of every node of [n] is one step deeper than its parent
    and is the entry of [D] named by one of the parent's edges. *)
Definition node_links (D : gmap string LockedDependency) (n : DependencyTreeNode) : Prop :=
  forall m, m ∈ nodes n -> forall c, c ∈ children m ->
    depth c = S (depth m) /\
    exists e, e ∈ dependencies (dependency m) /\ D !! e = Some (dependency c).

End LockSpecs.

(* ================================================================== *)
(** * Proofs *)

Module AddProofs.
Import Add.

Lemma split_colon_length (s : string) : length (split_colon s) = S (colons s).
Proof.
  induction s as [|c rest IH]; simpl; [reflexivity|].
  destruct (Ascii.eqb c ":"); simpl; [by rewrite IH|].
  destruct (split_colon rest) eqn:E; simpl in *; congruence.
Qed.

Lemma split_colon_app (g rest : string) :
  colons g = 0 -> split_colon (g ++ ":" ++ rest) = g :: split_colon rest.
Proof.
  induction g as [|c g IH]; simpl; intros H; [reflexivity|].
  destruct (Ascii.eqb c ":") eqn:E; simpl in H; [lia|].
  rewrite IH by lia. reflexivity.
Qed.

Lemma split_colon_no_colon (s : string) : colons s = 0 -> split_colon s = [s].
Proof.
  induction s as [|c s IH]; simpl; intros H; [reflexivity|].
  destruct (Ascii.eqb c ":") eqn:E; simpl in H; [lia|].
  rewrite IH by lia. reflexivity.
Qed.

(** ** C5 *)
(** Claim C5: ["g:a:1.0"] parses to [{g, a, Some 1.0}], ["g:a"] parses to
    [{g, a, None}], and every input whose colon-delimited field count is
    neither 2 nor 3 (["g"], ["g:a:1.0:extra"], ...) is rejected with the
    invalid-coordinate error; conversely the 2- and 3-field inputs are the
    only ones accepted. *)
Theorem parse_dependency_coordinate_fields :
  parse_dependency_coordinate "g:a:1.0"
    = Ok {| group_id := "g"; artifact_id := "a"; version := Some "1.0" |} /\
  parse_dependency_coordinate "g:a"
    = Ok {| group_id := "g"; artifact_id := "a"; version := None |} /\
  parse_dependency_coordinate "g" = Err InvalidCoordinate /\
  parse_dependency_coordinate "g:a:1.0:extra" = Err InvalidCoordinate /\
  (forall s : string,
     parse_dependency_coordinate s = Err InvalidCoordinate <->
     ~ (length (split_colon s) = 2 \/ length (split_colon s) = 3)).
Proof.
  split; [reflexivity|]. split; [reflexivity|].
  split; [reflexivity|]. split; [reflexivity|].
  intros s. unfold parse_dependency_coordinate.
  destruct (length (split_colon s)) as [|[|[|[|n]]]]; simpl;
    split; intros H; try discriminate; try lia; reflexivity.
Qed.

(** ** C6 *)
(** Claim C6 as stated: a 2- or 3-field input with an empty group or an
    empty artifact is rejected.  The code has no emptiness check: [":a"],
    ["g:"] and ["g::1.0"] are all accepted. *)
Lemma parse_accepts_empty_fields :
  parse_dependency_coordinate ":a"
    = Ok {| group_id := ""; artifact_id := "a"; version := None |} /\
  parse_dependency_coordinate "g:"
    = Ok {| group_id := "g"; artifact_id := ""; version := None |} /\
  parse_dependency_coordinate "g::1.0"
    = Ok {| group_id := "g"; artifact_id := ""; version := Some "1.0" |} /\
  ~ (forall s : string,
       (length (split_colon s) = 2 \/ length (split_colon s) = 3) ->
       (nth 0 (split_colon s) "" = "" \/ nth 1 (split_colon s) "" = "") ->
       parse_dependency_coordinate s = Err InvalidCoordinate).
Proof.
  split; [reflexivity|]. split; [reflexivity|]. split; [reflexivity|].
  intros H. specialize (H ":a"). simpl in H.
  discriminate (H (or_introl eq_refl) (or_introl eq_refl)).
Qed.

(** Claim C6, amended: the parser checks the field count only.  For every
    group [g], artifact [a] and version [v] containing no colon, empty
    strings included, ["g:a"] parses to [{g, a, None}] and ["g:a:v"] to
    [{g, a, Some v}]. *)
Theorem parse_keeps_fields_verbatim (g a v : string) :
  colons g = 0 -> colons a = 0 -> colons v = 0 ->
  parse_dependency_coordinate (g ++ ":" ++ a)
    = Ok {| group_id := g; artifact_id := a; version := None |} /\
  parse_dependency_coordinate (g ++ ":" ++ a ++ ":" ++ v)
    = Ok {| group_id := g; artifact_id := a; version := Some v |}.
Proof.
  intros Hg Ha Hv. unfold parse_dependency_coordinate.
  rewrite !split_colon_app, !split_colon_no_colon by assumption.
  split; reflexivity.
Qed.

Lemma parse_keeps_fields_verbatim_witness :
  (colons "" = 0 /\ colons "a" = 0 /\ colons "1.0" = 0) /\
  parse_dependency_coordinate ("" ++ ":" ++ "a")
    = Ok {| group_id := ""; artifact_id := "a"; version := None |} /\
  parse_dependency_coordinate ("" ++ ":" ++ "a" ++ ":" ++ "1.0")
    = Ok {| group_id := ""; artifact_id := "a"; version := Some "1.0" |}.
Proof.
  split; [split; [reflexivity | split; reflexivity]|].
  apply (parse_keeps_fields_verbatim "" "a" "1.0"); reflexivity.
Defined.

End AddProofs.

Module ResolveProofs.
Import Dep Resolve ResolveSpecs.

(** *** Conflict detection *)

Lemma detect_step_nil (vm : gmap string (gmap string string)) (dep : Dependency) :
  versions_self vm ->
  fst (detect_step ([], vm) dep) = [] /\ versions_self (snd (detect_step ([], vm) dep)).
Proof.
  intros Hvm. unfold detect_step.
  set (key := (group_id dep ++ ":" ++ artifact_id dep)%string).
  set (versions := default ∅ (vm !! key)).
  assert (Hv : forall v x, versions !! v = Some x -> x = v).
  { intros v x. unfold versions. destruct (vm !! key) eqn:E; simpl.
    - apply (Hvm key g v x E).
    - by rewrite lookup_empty. }
  destruct (versions !! version dep) as [existing|] eqn:Ev.
  - assert (existing = version dep) by (apply Hv; exact Ev).
    rewrite decide_False by congruence. simpl. split; [reflexivity|].
    intros k vs v x Hk Hx. destruct (decide (k = key)) as [->|Hne].
    + rewrite lookup_insert_eq in Hk. injection Hk as <-. eauto.
    + rewrite lookup_insert_ne in Hk by congruence. eauto.
  - simpl. split; [reflexivity|].
    intros k vs v x Hk Hx. destruct (decide (k = key)) as [->|Hne].
    + rewrite lookup_insert_eq in Hk. injection Hk as <-.
      destruct (decide (v = version dep)) as [->|Hne'].
      * rewrite lookup_insert_eq in Hx. congruence.
      * rewrite lookup_insert_ne in Hx by congruence. eauto.
    + rewrite lookup_insert_ne in Hk by congruence. eauto.
Qed.

Lemma detect_conflicts_in_nil (values : list Dependency) :
  detect_conflicts_in values = [].
Proof.
  unfold detect_conflicts_in.
  assert (H : forall vm, versions_self vm ->
            fst (fold_left detect_step values ([], vm)) = []).
  { induction values as [|d values IH]; intros vm Hvm; [reflexivity|].
    cbn [fold_left]. destruct (detect_step_nil vm d Hvm) as [H1 H2].
    destruct (detect_step ([], vm) d) as [c vm'] eqn:E. cbn [fst snd] in H1, H2.
    subst c. apply IH, H2. }
  apply H. intros key vs v x Hk. by rewrite lookup_empty in Hk.
Qed.

(** ** C1 *)
(** Claim C1 (code_bug): after resolving the top-level specs [a:b:1.0] and
    [a:b:2.0] the resolver holds both versions of [a:b] and [resolve]
    succeeds, yet [detect_conflicts] reports nothing.  It reports nothing
    for every resolver state and every iteration order of [resolved]:
    [version_map] is keyed by the version, so the version found is always
    the version looked up and the [!=] test never holds. *)
Theorem detect_conflicts_never_reports :
  (exists s,
     resolve_dependencies [ab1; ab2] new = (Ok [ab1; ab2], s) /\
     resolved s !! "a:b:1.0" = Some ab1 /\ resolved s !! "a:b:2.0" = Some ab2 /\
     detect_conflicts s = []) /\
  (forall values : list Dependency, detect_conflicts_in values = []).
Proof.
  split.
  - eexists. split; [reflexivity|]. split; [reflexivity|].
    split; [reflexivity|]. apply detect_conflicts_in_nil.
  - apply detect_conflicts_in_nil.
Qed.

(** *** Cycle detection *)

(** ** C3 *)
(** Claim C3: when the resolution of a spec list reaches a spec whose
    coordinate key is in [in_progress] (and not yet in [resolved]), the
    whole [resolve_dependencies] call fails with the cycle error on that
    key, returns no list, and the resolver is left exactly as it was
    before that spec: no entry of the cyclic branch enters [resolved].
    The transitive step of the code is a stub returning no dependencies,
    so [in_progress] can only hold such a key when the resolver is
    entered in that state. *)
Theorem resolve_cycle_fails (pre post : list Dependency) (d : Dependency)
    (s s1 : DependencyResolver) (r : list Dependency) :
  resolve_dependencies pre s = (Ok r, s1) ->
  resolved s1 !! coordinate d = None ->
  coordinate d ∈ in_progress s1 ->
  resolve_dependencies (pre ++ d :: post) s = (Err (Cycle (coordinate d)), s1).
Proof.
  revert s r. induction pre as [|p pre IH]; intros s r Hpre Hnone Hin.
  - simpl in Hpre. injection Hpre as <- <-. simpl.
    unfold resolve_dependency. rewrite Hnone, decide_True by exact Hin.
    reflexivity.
  - simpl in Hpre |- *.
    destruct (resolve_dependency p s) as [[rp|e] sp] eqn:Ep; [|discriminate].
    destruct (resolve_dependencies pre sp) as [[rs|e] s2] eqn:Erest; [|discriminate].
    injection Hpre as _ <-.
    rewrite (IH sp rs Erest Hnone Hin). reflexivity.
Qed.

Lemma resolve_cycle_fails_witness :
  resolve_dependencies ([ab1] ++ xy1 :: [ab2]) cyc_state
    = (Err (Cycle "X:Y:1.0"),
       {| resolved := <["a:b:1.0" := ab1]> ∅; unresolved := ∅;
          in_progress := {["X:Y:1.0"]} ∖ {["a:b:1.0"]} ∖ ∅;
          expansions := ["a:b:1.0"] |}).
Proof.
  apply (resolve_cycle_fails [ab1] [ab2] xy1 cyc_state _ [ab1]).
  - reflexivity.
  - reflexivity.
  - unfold cyc_state; simpl. set_solver.
Defined.

(** *** Memoisation *)

Lemma memo_inv_new : memo_inv new.
Proof.
  split; [reflexivity|]. split; [constructor|].
  intros k. simpl. rewrite lookup_empty. split; intros H.
  - inversion H.
  - by destruct H.
Qed.

Lemma resolve_dependency_memo (d : Dependency) (s : DependencyResolver) :
  memo_inv s ->
  exists s',
    resolve_dependency d s = (Ok [default d (resolved s' !! coordinate d)], s') /\
    memo_inv s' /\ resolved s ⊆ resolved s' /\
    is_Some (resolved s' !! coordinate d) /\
    (forall k, k ∈ expansions s' <-> k ∈ expansions s \/ k = coordinate d).
Proof.
  intros (Hip & Hnd & Hex). unfold resolve_dependency.
  destruct (resolved s !! coordinate d) as [r|] eqn:Er.
  - exists s. rewrite Er. split; [reflexivity|].
    split; [split; [exact Hip | split; assumption]|].
    split; [reflexivity|]. split; [by eexists|].
    intros k. split; [tauto|]. intros [Hk| ->]; [exact Hk|]. apply Hex. by eexists.
  - rewrite Hip, decide_False by set_solver. simpl.
    eexists. split.
    { f_equal. simpl. rewrite lookup_insert_eq. reflexivity. }
    unfold set_in_progress, set_resolved, log_expansion. cbn.
    assert (Hnot : coordinate d ∉ expansions s).
    { intros Hin. apply Hex in Hin. rewrite Er in Hin. by destruct Hin. }
    split; [split; [cbn; set_solver | split]|].
    + cbn. apply NoDup_app. split; [exact Hnd|]. split; [|constructor; [set_solver | constructor]].
      intros x Hx Hy. apply list_elem_of_singleton in Hy. subst. contradiction.
    + intros k. cbn. rewrite elem_of_app, list_elem_of_singleton, Hex.
      destruct (decide (k = coordinate d)) as [->|Hne].
      * rewrite lookup_insert_eq. split; [by eexists | tauto].
      * rewrite lookup_insert_ne by congruence. intuition congruence.
    + cbn. split; [by apply insert_subseteq|].
      split; [rewrite lookup_insert_eq; by eexists|].
      intros k. rewrite elem_of_app, list_elem_of_singleton. reflexivity.
Qed.

Lemma resolve_dependencies_memo (specs : list Dependency) (s : DependencyResolver) :
  memo_inv s ->
  exists s',
    resolve_dependencies specs s
      = (Ok (map (fun d => default d (resolved s' !! coordinate d)) specs), s') /\
    memo_inv s' /\ resolved s ⊆ resolved s' /\
    (forall k, k ∈ expansions s' <-> k ∈ expansions s \/ k ∈ map coordinate specs).
Proof.
  revert s. induction specs as [|d specs IH]; intros s Hs.
  - exists s. split; [reflexivity|]. split; [exact Hs|]. split; [reflexivity|].
    intros k. split; [tauto|]. intros [Hk|Hk]; [exact Hk | inversion Hk].
  - destruct (resolve_dependency_memo d s Hs) as (s1 & E1 & Hs1 & Hsub1 & [r Hr] & Hk1).
    destruct (IH s1 Hs1) as (s' & E' & Hs' & Hsub' & Hk').
    exists s'. simpl. rewrite E1, E'. split.
    + rewrite Hr. rewrite (lookup_weaken (resolved s1) (resolved s') _ r Hr Hsub').
      reflexivity.
    + split; [exact Hs'|]. split; [by transitivity (resolved s1)|].
      intros k. rewrite Hk', Hk1. simpl. rewrite elem_of_cons. tauto.
Qed.

Lemma resolve_dependency_keyed (d : Dependency) (s s1 : DependencyResolver)
    (r : list Dependency) :
  resolve_dependency d s = (Ok r, s1) -> keyed (resolved s) ->
  keyed (resolved s1) /\ resolved s ⊆ resolved s1 /\ is_Some (resolved s1 !! coordinate d).
Proof.
  unfold resolve_dependency. intros E Hk.
  destruct (resolved s !! coordinate d) as [x|] eqn:Er.
  - injection E as _ <-. split; [exact Hk|]. split; [reflexivity|]. by eexists.
  - destruct (decide (coordinate d ∈ in_progress s)); [discriminate|].
    simpl in E. injection E as _ <-. cbn.
    split; [|split; [by apply insert_subseteq | rewrite lookup_insert_eq; by eexists]].
    intros k e. destruct (decide (k = coordinate d)) as [->|Hne].
    + rewrite lookup_insert_eq. intros [= <-]. reflexivity.
    + rewrite lookup_insert_ne by congruence. apply Hk.
Qed.

Lemma resolve_dependencies_keyed (specs : list Dependency) (s s' : DependencyResolver)
    (r : list Dependency) :
  resolve_dependencies specs s = (Ok r, s') -> keyed (resolved s) ->
  keyed (resolved s') /\ resolved s ⊆ resolved s' /\
  forall d, d ∈ specs -> is_Some (resolved s' !! coordinate d).
Proof.
  revert s r. induction specs as [|d specs IH]; intros s r E Hk.
  - injection E as _ <-. split; [exact Hk|]. split; [reflexivity|].
    intros d Hd. inversion Hd.
  - simpl in E.
    destruct (resolve_dependency d s) as [[r1|e] s1] eqn:E1; [|discriminate].
    destruct (resolve_dependencies specs s1) as [[rs|e] s2] eqn:E2; [|discriminate].
    injection E as _ <-.
    destruct (resolve_dependency_keyed _ _ _ _ E1 Hk) as (Hk1 & Hsub1 & [x Hx]).
    destruct (IH _ _ E2 Hk1) as (Hk2 & Hsub2 & Hall).
    split; [exact Hk2|]. split; [by transitivity (resolved s1)|].
    intros d' Hd'. apply elem_of_cons in Hd' as [->|Hd']; [|exact (Hall d' Hd')].
    exists x. exact (lookup_weaken _ _ _ _ Hx Hsub2).
Qed.

(** ** C4 *)
(** Claim C4 as stated: when two distinct specs both require [X:Y:1.0],
    the result of [resolve] holds exactly one entry for [X:Y:1.0].  The
    specs [X:Y:1.0] (compile) and [X:Y:1.0] (test) are distinct and both
    require [X:Y:1.0]; the expansion runs once, but the memo hit returns
    the cached entry again, so the result holds it twice. *)
Lemma resolve_diamond_duplicates :
  let xy1_test := with_scope xy1 Test in
  xy1_test <> xy1 /\
  (exists s, resolve_dependencies [xy1; xy1_test] new = (Ok [xy1; xy1], s) /\
             expansions s = ["X:Y:1.0"]) /\
  ~ (forall res s, resolve_dependencies [xy1; xy1_test] new = (Ok res, s) ->
       length (filter (fun d => coordinate d = "X:Y:1.0") res) = 1).
Proof.
  simpl. split; [discriminate|]. split.
  - eexists. split; reflexivity.
  - intros H. specialize (H [xy1; xy1] _ eq_refl). vm_compute in H. discriminate.
Qed.

(** Claim C4, amended: from a fresh resolver, [resolve] expands each
    coordinate key exactly once (the keys expanded are the requested keys,
    without repetition), and it returns one entry per requested spec, the
    memoised entry for its key; a key requested by several specs appears
    as often as it is requested.  The resolver left behind holds every
    requested key, under an entry with that coordinate. *)
Theorem resolve_expands_once (specs : list Dependency) :
  exists s',
    resolve_dependencies specs new
      = (Ok (map (fun d => default d (resolved s' !! coordinate d)) specs), s') /\
    NoDup (expansions s') /\
    (forall k, k ∈ expansions s' <-> k ∈ map coordinate specs) /\
    (forall d, d ∈ specs ->
       exists e, resolved s' !! coordinate d = Some e /\ coordinate e = coordinate d).
Proof.
  destruct (resolve_dependencies_memo specs new memo_inv_new)
    as (s' & E & (_ & Hnd & _) & _ & Hk).
  exists s'. split; [exact E|]. split; [exact Hnd|]. split.
  - intros k. rewrite Hk. simpl. split; [intros [H|H]; [inversion H | exact H] | tauto].
  - destruct (resolve_dependencies_keyed specs new s' _ E) as (Hkey & _ & Hin).
    { intros k e. simpl. rewrite lookup_empty. discriminate. }
    intros d Hd. destruct (Hin d Hd) as [e He]. exists e. split; [exact He|].
    exact (Hkey _ _ He).
Qed.

(** *** Resolution order *)

Lemma resolution_fold (keys : list string) (visited : gset string) (order : list string) :
  NoDup keys -> (forall k, k ∈ keys -> k ∉ visited) ->
  fold_left
    (fun st key =>
       let '(visited, _, _) := st in
       if decide (key ∈ visited) then st else snd (topological_sort key st))
    keys (visited, ∅, order)
  = (visited ∪ list_to_set keys, ∅, (order ++ keys)%list).
Proof.
  revert visited order. induction keys as [|k keys IH]; intros visited order Hnd Hdis.
  - simpl. rewrite union_empty_r_L, app_nil_r. reflexivity.
  - apply NoDup_cons in Hnd as [Hk Hnd]. simpl.
    rewrite decide_False by (apply Hdis; left).
    unfold topological_sort. rewrite decide_False by set_solver.
    rewrite decide_False by (apply Hdis; left). simpl.
    replace (({[k]} ∪ (∅ : gset string)) ∖ {[k]}) with (∅ : gset string) by set_solver.
    rewrite IH; [| exact Hnd |].
    + f_equal; [f_equal; set_solver|]. rewrite <- app_assoc. reflexivity.
    + intros x Hx. rewrite elem_of_union, elem_of_singleton.
      intros [->|Hv]; [contradiction | exact (Hdis x (proj2 (elem_of_cons _ _ _) (or_intror Hx)) Hv)].
Qed.

(** [get_resolution_order] returns the keys of [resolved], each once, in
    the reverse of the map's iteration order: the recursion of
    [topological_sort] over transitive keys is a TODO, so each call appends
    its own key alone. *)
Theorem resolution_order_reverses_keys (keys : list string) :
  NoDup keys -> get_resolution_order_in keys = rev keys.
Proof.
  intros Hnd. unfold get_resolution_order_in.
  rewrite resolution_fold; [reflexivity | exact Hnd | set_solver].
Qed.

Lemma resolution_order_reverses_keys_witness :
  NoDup ["a:b:1.0"; "X:Y:1.0"] /\
  get_resolution_order_in ["a:b:1.0"; "X:Y:1.0"] = ["X:Y:1.0"; "a:b:1.0"].
Proof.
  assert (Hnd : NoDup ["a:b:1.0"; "X:Y:1.0"]) by (repeat constructor; set_solver).
  split; [exact Hnd|]. apply (resolution_order_reverses_keys _ Hnd).
Defined.

End ResolveProofs.

Module LockProofs.
Import Lock LockSpecs.

(** *** Entry count *)

(** ** C10 *)
(** Claim C10: [add_dependency] and [remove_dependency] keep
    [metadata.total_dependencies] equal to the number of entries of the
    map; an added entry whose key is already present replaces the old one
    and leaves the count unchanged.  [remove_dependency] of an absent key
    touches nothing, so it preserves the invariant. *)
Theorem count_ok_preserved (now : string) (lf : LockFile) (dep : LockedDependency)
    (g a v : string) :
  count_ok lf ->
  count_ok (add_dependency now lf dep) /\
  count_ok (snd (remove_dependency now lf g a v)) /\
  (is_Some (lf_dependencies lf !! coordinate dep) ->
   total_dependencies (metadata (add_dependency now lf dep))
     = total_dependencies (metadata lf)).
Proof.
  unfold count_ok, add_dependency, remove_dependency, coordinate. intros Hc.
  split; [reflexivity|]. split.
  - destruct (bool_decide _) eqn:E; simpl; [reflexivity|].
    apply bool_decide_eq_false in E.
    rewrite delete_id; [exact Hc|]. destruct (lf_dependencies lf !! _); [|reflexivity].
    exfalso. apply E. by eexists.
  - intros [old Hold]. simpl. rewrite Hc. by rewrite map_size_insert_Some.
Qed.

Lemma count_ok_preserved_witness :
  let lf := add_dependency "t0" (new "t0") sample_dep in
  count_ok lf /\
  count_ok (add_dependency "t1" lf sample_dep) /\
  count_ok (snd (remove_dependency "t1" lf "g" "x" "1.0")) /\
  total_dependencies (metadata (add_dependency "t1" lf sample_dep))
    = total_dependencies (metadata lf).
Proof.
  intros lf.
  assert (Hc : count_ok lf) by reflexivity.
  destruct (count_ok_preserved "t1" lf sample_dep "g" "x" "1.0" Hc) as (H1 & H2 & H3).
  split; [exact Hc|]. split; [exact H1|]. split; [exact H2|].
  apply H3. unfold lf. simpl. by eexists.
Defined.

(** *** Loading *)

(** ** C8 *)
(** Claim C8: [LockFile::load] on a path with no file returns a fresh empty
    store (no error), and on a file whose contents the TOML parser rejects
    it returns that error instead of an empty store. *)
Theorem load_missing_or_malformed (TomlError : Type)
    (from_str : string -> result LockFile TomlError)
    (fs : gmap string string) (now missing bad content : string) (e : TomlError) :
  fs !! missing = None ->
  fs !! bad = Some content ->
  from_str content = Err e ->
  load TomlError from_str fs now missing = Ok (new now) /\
  lf_dependencies (new now) = ∅ /\ total_dependencies (metadata (new now)) = 0 /\
  load TomlError from_str fs now bad = Err (Toml e).
Proof.
  intros Hm Hb He. unfold load. rewrite Hm, Hb, He.
  split; [reflexivity|]. split; [reflexivity|]. split; reflexivity.
Qed.

Lemma load_missing_or_malformed_witness :
  load string reject_all {["jx.lock" := "not toml"]} "t0" "absent.lock" = Ok (new "t0") /\
  lf_dependencies (new "t0") = ∅ /\ total_dependencies (metadata (new "t0")) = 0 /\
  load string reject_all {["jx.lock" := "not toml"]} "t0" "jx.lock"
    = Err (Toml "expected `=`").
Proof.
  apply (load_missing_or_malformed string reject_all {["jx.lock" := "not toml"]}
           "t0" "absent.lock" "jx.lock" "not toml" "expected `=`"); reflexivity.
Defined.

(** *** Dependency tree *)

Lemma flatten_eq (n : DependencyTreeNode) :
  flatten n = coordinate (dependency n) :: flatten_forest (children n).
Proof.
  destruct n as [d cs dp]. simpl. f_equal.
  induction cs as [|c cs IH]; simpl; [reflexivity|]. by rewrite IH.
Qed.

Lemma flatten_forest_cons (n : DependencyTreeNode) (ns : list DependencyTreeNode) :
  flatten_forest (n :: ns) = (flatten n ++ flatten_forest ns)%list.
Proof. reflexivity. Qed.

Section Tree.
Variable D : gmap string LockedDependency.
Hypothesis Hwf : keys_are_coordinates D.

Lemma unvisited_dec (c : string) (V : gset string) :
  c ∈ dom D -> c ∉ V -> size (dom D ∖ ({[c]} ∪ V)) < size (dom D ∖ V).
Proof.
  intros Hc HV. apply subset_size. split; [set_solver|].
  intros Hsub. specialize (Hsub c). set_solver.
Qed.

Lemma unvisited_mono (V V' : gset string) :
  V ⊆ V' -> size (dom D ∖ V') <= size (dom D ∖ V).
Proof. intros H. apply subseteq_size. set_solver. Qed.

Lemma add_children_spec
    (build : LockedDependency -> gset string -> nat -> option (DependencyTreeNode * gset string))
    (f : nat)
    (Hb : forall dep V depth, coordinate dep ∈ dom D -> coordinate dep ∉ V ->
          size (dom D ∖ V) < f -> build_post D dep V (build dep V depth))
    (edges : list string) (V : gset string) (depth : nat) :
  size (dom D ∖ V) < f ->
  exists ns V', add_children build D depth edges V = Some (ns, V') /\
    (forall x, x ∈ V' <-> x ∈ V \/ x ∈ flatten_forest ns) /\
    NoDup (flatten_forest ns) /\
    (forall x, x ∈ flatten_forest ns -> x ∈ dom D /\ x ∉ V).
Proof.
  revert V. induction edges as [|e edges IH]; intros V Hsz; simpl.
  - exists [], V. split; [reflexivity|]. simpl.
    split; [intros x; split; [tauto | intros [H|H]; [exact H | inversion H]]|].
    split; [constructor|]. intros x H. inversion H.
  - destruct (D !! e) as [child|] eqn:Ee; [|exact (IH V Hsz)].
    destruct (decide (e ∈ V)) as [He|He]; [exact (IH V Hsz)|].
    assert (Hce : coordinate child = e) by exact (Hwf e child Ee).
    destruct (Hb child V (S depth)) as (n & V2 & E2 & HV2 & Hnd2 & Hel2 & _).
    { rewrite Hce, elem_of_dom, Ee. by eexists. }
    { by rewrite Hce. }
    { exact Hsz. }
    rewrite E2.
    assert (Hsub : V ⊆ V2) by (intros x Hx; apply HV2; tauto).
    destruct (IH V2) as (ns & V3 & E3 & HV3 & Hnd3 & Hel3).
    { pose proof (unvisited_mono V V2 Hsub). lia. }
    rewrite E3. exists (n :: ns), V3. split; [reflexivity|].
    rewrite flatten_forest_cons. split; [|split].
    + intros x. rewrite HV3, HV2, elem_of_app. tauto.
    + apply NoDup_app. split; [exact Hnd2|]. split; [|exact Hnd3].
      intros x Hx Hy. apply (proj2 (Hel3 x Hy)). apply HV2. tauto.
    + intros x. rewrite elem_of_app. intros [Hx|Hx]; [exact (Hel2 x Hx)|].
      destruct (Hel3 x Hx) as [Hd HnV2]. split; [exact Hd|]. intros HxV. apply HnV2, Hsub, HxV.
Qed.

Lemma build_tree_node_spec (f : nat) :
  forall dep V depth, coordinate dep ∈ dom D -> coordinate dep ∉ V ->
  size (dom D ∖ V) < f -> build_post D dep V (build_tree_node f D dep V depth).
Proof.
  induction f as [|f IH]; intros dep V depth Hc HV Hsz; [lia|].
  cbn [build_tree_node].
  destruct (add_children_spec (build_tree_node f D) f IH (dependencies dep)
              ({[coordinate dep]} ∪ V) depth) as (ns & V' & E & HV' & Hnd & Hel).
  { pose proof (unvisited_dec (coordinate dep) V Hc HV). lia. }
  rewrite E.
  exists {| dependency := dep; children := ns; depth := depth |}, V'.
  split; [reflexivity|]. rewrite flatten_eq. simpl.
  split; [|split; [|split]].
  - intros x. rewrite HV', elem_of_union, elem_of_singleton, elem_of_cons. tauto.
  - constructor; [|exact Hnd]. intros Hin. apply (proj2 (Hel _ Hin)). set_solver.
  - intros x. rewrite elem_of_cons. intros [->|Hx]; [tauto|].
    destruct (Hel x Hx) as [Hd Hn]. split; [exact Hd | set_solver].
  - rewrite elem_of_cons. left. reflexivity.
Qed.

Lemma tree_loop_spec (f : nat) (entries : list (string * LockedDependency)) (V : gset string) :
  size D < f ->
  (forall k d, (k, d) ∈ entries -> D !! k = Some d) ->
  exists forest, tree_loop f D entries V = Some forest /\
    NoDup (flatten_forest forest) /\
    (forall x, x ∈ flatten_forest forest -> x ∈ dom D /\ x ∉ V) /\
    (forall k d, (k, d) ∈ entries -> k ∈ V \/ k ∈ flatten_forest forest).
Proof.
  intros Hf. revert V. induction entries as [|[k d] entries IH]; intros V Hent; cbn [tree_loop].
  - exists []. split; [reflexivity|]. split; [constructor|].
    split; [intros x H; inversion H|]. intros k d H. inversion H.
  - assert (Hent' : forall k' d', (k', d') ∈ entries -> D !! k' = Some d')
      by (intros k' d' H; apply Hent; rewrite elem_of_cons; tauto).
    assert (Hk : D !! k = Some d) by (apply Hent; rewrite elem_of_cons; tauto).
    destruct (decide (k ∈ V)) as [HkV|HkV].
    + destruct (IH V Hent') as (forest & E & Hnd & Hel & Hcov).
      exists forest. split; [exact E|]. split; [exact Hnd|]. split; [exact Hel|].
      intros k' d'. rewrite elem_of_cons. intros [Heq|Hin]; [|exact (Hcov k' d' Hin)].
      injection Heq as -> ->. tauto.
    + assert (Hcd : coordinate d = k) by exact (Hwf k d Hk).
      destruct (build_tree_node_spec f d V 0) as (n & V1 & E1 & HV1 & Hnd1 & Hel1 & Hin1).
      { rewrite Hcd, elem_of_dom, Hk. by eexists. }
      { by rewrite Hcd. }
      { pose proof (unvisited_mono ∅ V ltac:(set_solver)) as Hm.
        rewrite difference_empty_L, size_dom in Hm. lia. }
      rewrite E1.
      destruct (IH V1 Hent') as (forest & E & Hnd & Hel & Hcov).
      rewrite E. exists (n :: forest). split; [reflexivity|].
      rewrite flatten_forest_cons. split; [|split].
      * apply NoDup_app. split; [exact Hnd1|]. split; [|exact Hnd].
        intros x Hx Hy. apply (proj2 (Hel x Hy)). apply HV1. tauto.
      * intros x. rewrite elem_of_app. intros [Hx|Hx]; [exact (Hel1 x Hx)|].
        destruct (Hel x Hx) as [Hd Hn]. split; [exact Hd|].
        intros HxV. apply Hn, HV1. tauto.
      * intros k' d'. rewrite elem_of_cons, elem_of_app. intros [Heq|Hin].
        -- injection Heq as -> ->. rewrite <- Hcd. tauto.
        -- destruct (Hcov k' d' Hin) as [H|H]; [apply HV1 in H|]; tauto.
Qed.

End Tree.

(** ** C9 *)
(** Claim C9 as stated: a node already visited still appears as a child
    (a leaf marker).  On the diamond, walked in the map's order
    [g:c:1, g:d:1, g:a:1, g:b:1], [g:d:1] is shown under [g:c:1] only:
    the node of [g:b:1] has the edge [g:d:1] and no child at all, and the
    node of [g:a:1] does not show [g:c:1]. *)
Lemma tree_omits_visited_children :
  exists forest,
    get_dependency_tree diamond = Some forest /\
    map (fun n => (coordinate (dependency n), length (children n)))
        (concat (map nodes forest))
      = [("g:c:1", 1); ("g:d:1", 0); ("g:a:1", 1); ("g:b:1", 0)] /\
    ~ every_edge_shown (lf_dependencies diamond) forest.
Proof.
  eexists. split; [vm_compute; reflexivity|]. split; [vm_compute; reflexivity|].
  intros H.
  destruct (H 3 {| dependency := locked "b" ["g:d:1"]; children := []; depth := 1 |}
              ltac:(vm_compute; reflexivity) "g:d:1") as (c & Hc & _).
  - simpl. apply list_elem_of_singleton. reflexivity.
  - vm_compute. eexists. reflexivity.
  - simpl in Hc. by apply elem_of_nil in Hc.
Qed.

(** ** C9 (amended) *)
(** Claim C9, amended: a child whose coordinate was already visited is
    omitted from its parent's children (neither re-expanded nor shown as a
    leaf).  On a lock file whose keys are the coordinates of their entries,
    for every iteration order of the map, the walk terminates and the
    forest shows every entry exactly once: its pre-order coordinates are a
    permutation of the keys. *)
Theorem tree_shows_each_entry_once (lf : LockFile)
    (entries : list (string * LockedDependency)) :
  keys_are_coordinates (lf_dependencies lf) ->
  entries ≡ₚ map_to_list (lf_dependencies lf) ->
  exists forest, get_dependency_tree_in lf entries = Some forest /\
    flatten_forest forest ≡ₚ entries.*1.
Proof.
  intros Hwf Hperm. unfold get_dependency_tree_in.
  set (D := lf_dependencies lf) in *.
  assert (Hent : forall k d, (k, d) ∈ entries -> D !! k = Some d).
  { intros k d Hin. apply elem_of_map_to_list. by rewrite <- Hperm. }
  destruct (tree_loop_spec D Hwf (tree_fuel D entries) entries ∅ ltac:(unfold tree_fuel; nia) Hent)
    as (forest & E & Hnd & Hel & Hcov).
  exists forest. split; [exact E|].
  apply NoDup_Permutation; [exact Hnd | rewrite Hperm; apply NoDup_fst_map_to_list |].
  intros x. split.
  - intros Hx. destruct (Hel x Hx) as [Hd _].
    apply elem_of_dom in Hd as [d Hd].
    apply (list_elem_of_fmap_2' fst entries (x, d)); [|reflexivity].
    rewrite Hperm. by apply elem_of_map_to_list.
  - intros Hx. apply list_elem_of_fmap in Hx as [[k d] [-> Hin]].
    destruct (Hcov k d Hin) as [H|H]; [set_solver | exact H].
Qed.

Lemma tree_shows_each_entry_once_witness :
  exists forest,
    get_dependency_tree_in diamond (map_to_list (lf_dependencies diamond)) = Some forest /\
    flatten_forest forest ≡ₚ (map_to_list (lf_dependencies diamond)).*1.
Proof.
  apply tree_shows_each_entry_once; [|reflexivity].
  change (map_Forall (fun k d => coordinate d = k) (lf_dependencies diamond)).
  apply (bool_decide_unpack _). vm_compute. reflexivity.
Defined.

End LockProofs.

Module LockOpsProofs.
Import Lock.

(** [get_dependency] after [add_dependency]: the key [g:a:v] finds the
    added entry exactly when it equals the entry's coordinate (also for
    different fields that contain [':'] and spell the same key); every other
    key finds what it found before.  [has_dependency] on the entry's own
    fields is [true]. *)
Theorem get_after_add (now : string) (lf : LockFile) (dep : LockedDependency) (g a v : string) :
  get_dependency (add_dependency now lf dep) g a v
    = (if String.eqb (g ++ ":" ++ a ++ ":" ++ v) (coordinate dep) then Some dep
       else get_dependency lf g a v) /\
  has_dependency (add_dependency now lf dep) (group_id dep) (artifact_id dep) (version dep) = true.
Proof.
  unfold get_dependency, has_dependency, add_dependency, coordinate; cbn. split.
  - destruct (String.eqb_spec (g ++ ":" ++ a ++ ":" ++ v)
                (group_id dep ++ ":" ++ artifact_id dep ++ ":" ++ version dep)) as [E|E].
    + rewrite E, lookup_insert_eq. reflexivity.
    + rewrite lookup_insert_ne by congruence. reflexivity.
  - rewrite lookup_insert_eq. apply bool_decide_eq_true. by eexists.
Qed.

(** [remove_dependency] returns whether the key was present, and afterwards
    the key is absent while every other key finds what it found before.  An
    absent key leaves the lock file (metadata included) unchanged. *)
Theorem remove_reports_presence (now : string) (lf : LockFile) (g a v : string) :
  exists lf',
    remove_dependency now lf g a v = (has_dependency lf g a v, lf') /\
    has_dependency lf' g a v = false /\
    (forall g' a' v', g' ++ ":" ++ a' ++ ":" ++ v' <> g ++ ":" ++ a ++ ":" ++ v ->
       get_dependency lf' g' a' v' = get_dependency lf g' a' v') /\
    (has_dependency lf g a v = false -> lf' = lf).
Proof.
  unfold remove_dependency, has_dependency, get_dependency.
  destruct (lf_dependencies lf !! (g ++ ":" ++ a ++ ":" ++ v)) as [d|] eqn:E.
  - rewrite bool_decide_eq_true_2 by (by eexists). eexists. split; [reflexivity|].
    cbn. rewrite lookup_delete_eq. split; [apply bool_decide_eq_false; by intros []|].
    split; [intros g' a' v' Hne; rewrite lookup_delete_ne by congruence; reflexivity|].
    discriminate.
  - rewrite bool_decide_eq_false_2 by (by intros []). eexists. split; [reflexivity|].
    cbn. rewrite lookup_delete_eq. split; [apply bool_decide_eq_false; by intros []|].
    split; [intros g' a' v' Hne; rewrite lookup_delete_ne by congruence; reflexivity|].
    intros _. rewrite delete_id by exact E. destruct lf; reflexivity.
Qed.

(** Removing the entry just added under a fresh key gives back the map of
    entries as it was before the add, and the count stays equal to the
    map's size. *)
Theorem remove_undoes_add (now1 now2 : string) (lf : LockFile) (dep : LockedDependency) :
  lf_dependencies lf !! coordinate dep = None ->
  exists lf',
    remove_dependency now2 (add_dependency now1 lf dep)
      (group_id dep) (artifact_id dep) (version dep) = (true, lf') /\
    lf_dependencies lf' = lf_dependencies lf /\ count_ok lf'.
Proof.
  intros Hnone. unfold remove_dependency, add_dependency, count_ok. cbn.
  rewrite lookup_insert_eq, bool_decide_eq_true_2 by (by eexists).
  eexists. split; [reflexivity|]. cbn.
  rewrite delete_insert_id by exact Hnone. split; reflexivity.
Qed.

Lemma remove_undoes_add_witness :
  lf_dependencies LockSpecs.one_entry = {[ "g:b:1" := LockSpecs.locked "b" [] ]} /\
  lf_dependencies LockSpecs.one_entry !! coordinate LockSpecs.sample_dep = None /\
  exists lf',
    remove_dependency "t2" (add_dependency "t1" LockSpecs.one_entry LockSpecs.sample_dep)
      "g" "a" "1.0" = (true, lf') /\
    lf_dependencies lf' = lf_dependencies LockSpecs.one_entry /\ count_ok lf'.
Proof.
  assert (H : lf_dependencies LockSpecs.one_entry !! coordinate LockSpecs.sample_dep = None)
    by reflexivity.
  split; [reflexivity|].
  split; [exact H|]. exact (remove_undoes_add "t1" "t2" LockSpecs.one_entry LockSpecs.sample_dep H).
Defined.

Lemma keys_are_coordinates_insert (deps : gmap string LockedDependency) k d :
  keys_are_coordinates deps -> coordinate d = k -> keys_are_coordinates (<[k := d]> deps).
Proof.
  intros H Hk k' d'. destruct (decide (k = k')) as [<-|Hne].
  - rewrite lookup_insert_eq. intros [= <-]. exact Hk.
  - rewrite lookup_insert_ne by exact Hne. apply H.
Qed.

(** [update_checksum] always returns [Ok(())].  It replaces the checksum of
    the entry under [g:a:v] and of no other entry; it never adds or removes
    a key, so it keeps the count and the keys-are-coordinates invariant; on
    an absent key it changes nothing, [updated_at] included. *)
Theorem update_checksum_spec (now : string) (lf : LockFile) (g a v c : string) :
  exists lf',
    update_checksum now lf g a v c = (Ok tt, lf') /\
    get_dependency lf' g a v = option_map (fun d => set_checksum d c) (get_dependency lf g a v) /\
    (forall g' a' v', g' ++ ":" ++ a' ++ ":" ++ v' <> g ++ ":" ++ a ++ ":" ++ v ->
       get_dependency lf' g' a' v' = get_dependency lf g' a' v') /\
    dom (lf_dependencies lf') = dom (lf_dependencies lf) /\
    (count_ok lf -> count_ok lf') /\
    (keys_are_coordinates (lf_dependencies lf) -> keys_are_coordinates (lf_dependencies lf')) /\
    (get_dependency lf g a v = None -> lf' = lf).
Proof.
  unfold update_checksum, get_dependency.
  destruct (lf_dependencies lf !! (g ++ ":" ++ a ++ ":" ++ v)) as [d|] eqn:E.
  - eexists. split; [reflexivity|]. cbn. rewrite lookup_insert_eq. split; [reflexivity|].
    split; [intros g' a' v' Hne; rewrite lookup_insert_ne by congruence; reflexivity|].
    split; [rewrite dom_insert_lookup_L by (by eexists); reflexivity|].
    split; [unfold count_ok; cbn; intros ->; rewrite map_size_insert_Some by (by eexists); reflexivity|].
    split; [|discriminate].
    intros Hk. apply keys_are_coordinates_insert; [exact Hk|]. apply Hk in E. exact E.
  - eexists. split; [reflexivity|]. rewrite E. split; [reflexivity|].
    split; [reflexivity|]. split; [reflexivity|]. split; [tauto|]. split; [tauto|]. reflexivity.
Qed.

(** [update_url] behaves as [update_checksum] for the [url] field. *)
Theorem update_url_spec (now : string) (lf : LockFile) (g a v u : string) :
  exists lf',
    update_url now lf g a v u = (Ok tt, lf') /\
    get_dependency lf' g a v = option_map (fun d => set_url d u) (get_dependency lf g a v) /\
    (forall g' a' v', g' ++ ":" ++ a' ++ ":" ++ v' <> g ++ ":" ++ a ++ ":" ++ v ->
       get_dependency lf' g' a' v' = get_dependency lf g' a' v') /\
    dom (lf_dependencies lf') = dom (lf_dependencies lf) /\
    (count_ok lf -> count_ok lf') /\
    (keys_are_coordinates (lf_dependencies lf) -> keys_are_coordinates (lf_dependencies lf')) /\
    (get_dependency lf g a v = None -> lf' = lf).
Proof.
  unfold update_url, get_dependency.
  destruct (lf_dependencies lf !! (g ++ ":" ++ a ++ ":" ++ v)) as [d|] eqn:E.
  - eexists. split; [reflexivity|]. cbn. rewrite lookup_insert_eq. split; [reflexivity|].
    split; [intros g' a' v' Hne; rewrite lookup_insert_ne by congruence; reflexivity|].
    split; [rewrite dom_insert_lookup_L by (by eexists); reflexivity|].
    split; [unfold count_ok; cbn; intros ->; rewrite map_size_insert_Some by (by eexists); reflexivity|].
    split; [|discriminate].
    intros Hk. apply keys_are_coordinates_insert; [exact Hk|]. apply Hk in E. exact E.
  - eexists. split; [reflexivity|]. rewrite E. split; [reflexivity|].
    split; [reflexivity|]. split; [reflexivity|]. split; [tauto|]. split; [tauto|]. reflexivity.
Qed.

End LockOpsProofs.

Module LockTreeProofs.
Import Lock LockSpecs.

Lemma nodes_eq (n : DependencyTreeNode) :
  nodes n = n :: concat (map nodes (children n)).
Proof.
  destruct n as [d cs dp]. simpl. f_equal.
  induction cs as [|c cs IH]; simpl; [reflexivity|]. by rewrite IH.
Qed.

Lemma build_tree_node_links (D : gmap string LockedDependency) (f : nat) :
  forall dep V d n V', build_tree_node f D dep V d = Some (n, V') ->
  dependency n = dep /\ depth n = d /\ node_links D n.
Proof.
  induction f as [|f IH]; intros dep V d n V' E; [discriminate|].
  cbn [build_tree_node] in E.
  assert (Hch : forall edges V ns V',
    add_children (build_tree_node f D) D d edges V = Some (ns, V') ->
    Forall (fun c => depth c = S d /\
                     (exists e, e ∈ edges /\ D !! e = Some (dependency c)) /\
                     node_links D c) ns).
  { induction edges as [|e edges IHe]; intros V1 ns V2 E1; cbn [add_children] in E1.
    - injection E1 as <- _. constructor.
    - destruct (D !! e) as [child|] eqn:Ee.
      + destruct (decide (e ∈ V1)).
        * eapply Forall_impl; [exact (IHe _ _ _ E1)|].
          intros c (Hd & (e' & He' & Hl) & Hn). split; [exact Hd|]. split; [|exact Hn].
          exists e'. split; [rewrite elem_of_cons; tauto | exact Hl].
        * destruct (build_tree_node f D child V1 (S d)) as [[cn V3]|] eqn:Eb; [|discriminate].
          destruct (add_children (build_tree_node f D) D d edges V3) as [[ns' V4]|] eqn:Er;
            [|discriminate].
          injection E1 as <- _.
          destruct (IH _ _ _ _ _ Eb) as (Hdep & Hdp & Hl).
          constructor.
          -- split; [exact Hdp|]. split; [|exact Hl].
             exists e. split; [left | rewrite Hdep; exact Ee].
          -- eapply Forall_impl; [exact (IHe _ _ _ Er)|].
             intros c (Hd & (e' & He' & Hl') & Hn). split; [exact Hd|]. split; [|exact Hn].
             exists e'. split; [rewrite elem_of_cons; tauto | exact Hl'].
      + eapply Forall_impl; [exact (IHe _ _ _ E1)|].
        intros c (Hd & (e' & He' & Hl) & Hn). split; [exact Hd|]. split; [|exact Hn].
        exists e'. split; [rewrite elem_of_cons; tauto | exact Hl]. }
  destruct (add_children (build_tree_node f D) D d (dependencies dep)
              ({[coordinate dep]} ∪ V)) as [[ns V2]|] eqn:Ec; [|discriminate].
  injection E as <- _. simpl. split; [reflexivity|]. split; [reflexivity|].
  pose proof (Hch _ _ _ _ Ec) as Hall. rewrite Forall_forall in Hall.
  intros m Hm. rewrite nodes_eq in Hm. simpl in Hm. apply elem_of_cons in Hm as [->|Hm].
  - intros c Hc. simpl in Hc. destruct (Hall c Hc) as (Hd & He & _). simpl. tauto.
  - apply list_elem_of_In, in_concat in Hm as (l & Hl & Hm).
    apply in_map_iff in Hl as (c & <- & Hc).
    apply list_elem_of_In in Hc, Hm. exact (proj2 (proj2 (Hall c Hc)) m Hm).
Qed.

(** Every tree [get_dependency_tree] returns is rooted at depth 0 at one of
    the iterated entries; every child sits one level below its parent and is
    the lock entry named by one of the parent's edges. *)
Theorem tree_links_follow_edges (lf : LockFile) (entries : list (string * LockedDependency))
    (forest : list DependencyTreeNode) :
  get_dependency_tree_in lf entries = Some forest ->
  Forall (fun n => depth n = 0 /\ exists k, (k, dependency n) ∈ entries) forest /\
  forall n, n ∈ concat (map nodes forest) -> forall c, c ∈ children n ->
    depth c = S (depth n) /\
    exists e, e ∈ dependencies (dependency n) /\ lf_dependencies lf !! e = Some (dependency c).
Proof.
  unfold get_dependency_tree_in.
  generalize (tree_fuel (lf_dependencies lf) entries) as f. intros f.
  set (D := lf_dependencies lf).
  generalize (∅ : gset string) as V. revert forest.
  induction entries as [|[k d] entries IH]; intros forest V E; cbn [tree_loop] in E.
  - injection E as <-. split; [constructor|]. intros n Hn. inversion Hn.
  - destruct (decide (k ∈ V)) as [HkV|HkV].
    + destruct (IH _ _ E) as [Hr Hl]. split; [|exact Hl].
      eapply Forall_impl; [exact Hr|]. intros n [Hd [k' Hk']]. split; [exact Hd|].
      exists k'. rewrite elem_of_cons. tauto.
    + destruct (build_tree_node f D d V 0) as [[n V1]|] eqn:Eb; [|discriminate].
      destruct (tree_loop f D entries V1) as [ns|] eqn:Er; [|discriminate].
      injection E as <-.
      destruct (build_tree_node_links D f _ _ _ _ _ Eb) as (Hdep & Hdp & Hn).
      destruct (IH _ _ Er) as [Hr Hl]. split.
      * constructor.
        -- split; [exact Hdp|]. exists k. rewrite Hdep. left.
        -- eapply Forall_impl; [exact Hr|]. intros m [Hd [k' Hk']]. split; [exact Hd|].
           exists k'. rewrite elem_of_cons. tauto.
      * intros m Hm. simpl in Hm. apply elem_of_app in Hm as [Hm|Hm]; [exact (Hn m Hm) | exact (Hl m Hm)].
Qed.

Lemma tree_links_follow_edges_witness :
  exists forest,
    get_dependency_tree_in aliased aliased_order = Some forest /\
    Forall (fun n => depth n = 0 /\ exists k, (k, dependency n) ∈ aliased_order) forest /\
    forall n, n ∈ concat (map nodes forest) -> forall c, c ∈ children n ->
      depth c = S (depth n) /\
      exists e, e ∈ dependencies (dependency n) /\
                lf_dependencies aliased !! e = Some (dependency c).
Proof.
  eexists. split; [vm_compute; reflexivity|].
  apply tree_links_follow_edges. vm_compute. reflexivity.
Defined.

End LockTreeProofs.

Module LockFuelProofs.
Import Lock LockSpecs.

Section Fuel.
Variable D : gmap string LockedDependency.

Lemma build_tree_node_S (f : nat) dep V d :
  build_tree_node (S f) D dep V d =
  match add_children (build_tree_node f D) D d (dependencies dep) ({[coordinate dep]} ∪ V) with
  | None => None
  | Some (nodes, visited) =>
      Some ({| dependency := dep; children := nodes; depth := d |}, visited)
  end.
Proof. reflexivity. Qed.

Lemma add_children_cons b d e edges V :
  add_children b D d (e :: edges) V =
  match D !! e with
  | Some child_dep =>
      if decide (e ∈ V) then add_children b D d edges V
      else
        match b child_dep V (S d) with
        | None => None
        | Some (child_node, visited) =>
            match add_children b D d edges visited with
            | None => None
            | Some (nodes, visited) => Some (child_node :: nodes, visited)
            end
        end
  | None => add_children b D d edges V
  end.
Proof. reflexivity. Qed.

Lemma add_children_mono
    (b1 b2 : LockedDependency -> gset string -> nat -> option (DependencyTreeNode * gset string)) :
  (forall dep V d r, b1 dep V d = Some r -> b2 dep V d = Some r) ->
  forall edges V d r, add_children b1 D d edges V = Some r -> add_children b2 D d edges V = Some r.
Proof.
  intros Hb. induction edges as [|e edges IH]; intros V d r E; cbn [add_children] in *; [exact E|].
  destruct (D !! e) as [child|]; [|exact (IH _ _ _ E)].
  destruct (decide (e ∈ V)); [exact (IH _ _ _ E)|].
  destruct (b1 child V (S d)) as [[cn V1]|] eqn:E1; [|discriminate].
  rewrite (Hb _ _ _ _ E1).
  destruct (add_children b1 D d edges V1) as [[ns V2]|] eqn:E2; [|discriminate].
  rewrite (IH _ _ _ E2). exact E.
Qed.

Lemma build_mono (f : nat) :
  forall dep V d r, build_tree_node f D dep V d = Some r -> build_tree_node (S f) D dep V d = Some r.
Proof.
  induction f as [|f IH]; intros dep V d r E; [discriminate|].
  cbn [build_tree_node] in *.
  destruct (add_children (build_tree_node f D) D d (dependencies dep) ({[coordinate dep]} ∪ V))
    as [[ns V1]|] eqn:E1; [|discriminate].
  rewrite (add_children_mono _ _ IH _ _ _ _ E1). exact E.
Qed.

Lemma build_mono_le (f g : nat) dep V d r :
  f <= g -> build_tree_node f D dep V d = Some r -> build_tree_node g D dep V d = Some r.
Proof. induction 1; [tauto|]. intros E. apply build_mono. tauto. Qed.

Lemma add_children_depth
    (b1 b2 : LockedDependency -> gset string -> nat -> option (DependencyTreeNode * gset string))
    (d1 d2 : nat) :
  (forall dep V, option_map snd (b1 dep V (S d1)) = option_map snd (b2 dep V (S d2))) ->
  forall edges V,
    option_map snd (add_children b1 D d1 edges V) = option_map snd (add_children b2 D d2 edges V).
Proof.
  intros Hb. induction edges as [|e edges IH]; intros V; cbn [add_children]; [reflexivity|].
  destruct (D !! e) as [child|]; [|apply IH].
  destruct (decide (e ∈ V)); [apply IH|].
  specialize (Hb child V).
  destruct (b1 child V (S d1)) as [[cn1 V1]|], (b2 child V (S d2)) as [[cn2 V2]|];
    simpl in Hb; try discriminate; [|reflexivity].
  injection Hb as <-. specialize (IH V1).
  destruct (add_children b1 D d1 edges V1) as [[ns1 W1]|], (add_children b2 D d2 edges V1) as [[ns2 W2]|];
    simpl in *; congruence.
Qed.

Lemma build_depth (f : nat) :
  forall dep V d1 d2,
    option_map snd (build_tree_node f D dep V d1) = option_map snd (build_tree_node f D dep V d2).
Proof.
  induction f as [|f IH]; intros dep V d1 d2; [reflexivity|].
  cbn [build_tree_node].
  pose proof (add_children_depth (build_tree_node f D) (build_tree_node f D) d1 d2
                (fun dep V => IH dep V (S d1) (S d2)) (dependencies dep) ({[coordinate dep]} ∪ V)) as H.
  destruct (add_children _ D d1 _ _) as [[ns1 W1]|], (add_children _ D d2 _ _) as [[ns2 W2]|];
    simpl in *; congruence.
Qed.

Lemma build_depth_some (f : nat) dep V d1 d2 :
  is_Some (build_tree_node f D dep V d1) -> is_Some (build_tree_node f D dep V d2).
Proof.
  pose proof (build_depth f dep V d1 d2) as H.
  destruct (build_tree_node f D dep V d1), (build_tree_node f D dep V d2); simpl in *;
    try discriminate; intros [? ?]; [by eexists | discriminate].
Qed.

(** [U] holds every coordinate the walk can mark visited. *)
Variable U : gset string.
Hypothesis HU : forall k d, D !! k = Some d -> coordinate d ∈ U.

Lemma build_visited (f : nat) :
  forall dep V d n V', coordinate dep ∈ U -> V ⊆ U ->
  build_tree_node f D dep V d = Some (n, V') -> V ⊆ V' /\ V' ⊆ U.
Proof.
  induction f as [|f IH]; intros dep V d n V' Hc HV E; [discriminate|].
  cbn [build_tree_node] in E.
  assert (Hch : forall edges W ns W', W ⊆ U ->
            add_children (build_tree_node f D) D d edges W = Some (ns, W') -> W ⊆ W' /\ W' ⊆ U).
  { induction edges as [|e edges IHe]; intros W ns W' HW E1; cbn [add_children] in E1.
    - injection E1 as _ <-. split; [reflexivity | exact HW].
    - destruct (D !! e) as [child|] eqn:Ee; [|exact (IHe _ _ _ HW E1)].
      destruct (decide (e ∈ W)); [exact (IHe _ _ _ HW E1)|].
      destruct (build_tree_node f D child W (S d)) as [[cn W1]|] eqn:Eb; [|discriminate].
      destruct (add_children (build_tree_node f D) D d edges W1) as [[ns' W2]|] eqn:Er;
        [|discriminate].
      injection E1 as _ <-.
      destruct (IH _ _ _ _ _ (HU _ _ Ee) HW Eb) as [H1 H2].
      destruct (IHe _ _ _ H2 Er) as [H3 H4]. split; [by transitivity W1 | exact H4]. }
  destruct (add_children (build_tree_node f D) D d (dependencies dep) ({[coordinate dep]} ∪ V))
    as [[ns W]|] eqn:E1; [|discriminate].
  injection E as _ <-.
  destruct (Hch _ ({[coordinate dep]} ∪ V) _ _ ltac:(set_solver) E1) as [H1 H2].
  split; [set_solver | exact H2].
Qed.

(** [tight m dep V]: the call needs [S m] levels of recursion, no fewer. *)
Definition tight (m : nat) (dep : LockedDependency) (V : gset string) : Prop :=
  is_Some (build_tree_node (S m) D dep V 0) /\ build_tree_node m D dep V 0 = None.

Lemma tight_child (f : nat) dep V :
  coordinate dep ∈ U -> V ⊆ U -> tight (S f) dep V ->
  exists e child W, D !! e = Some child /\ V ⊆ W /\ W ⊆ U /\ tight f child W.
Proof.
  intros Hc HV [[r Hs] Hn]. rewrite build_tree_node_S in Hs, Hn.
  assert (Hch : forall edges W, V ⊆ W -> W ⊆ U ->
            is_Some (add_children (build_tree_node (S f) D) D 0 edges W) ->
            add_children (build_tree_node f D) D 0 edges W = None ->
            exists e child W', D !! e = Some child /\ V ⊆ W' /\ W' ⊆ U /\
              is_Some (build_tree_node (S f) D child W' 1) /\ build_tree_node f D child W' 1 = None).
  { induction edges as [|e edges IHe]; intros W HVW HW [r1 E1] E2; [discriminate|].
    rewrite add_children_cons in E1, E2.
    destruct (D !! e) as [child|] eqn:Ee; [|exact (IHe W HVW HW ltac:(by eexists) E2)].
    destruct (decide (e ∈ W)) as [Hin|Hin]; [exact (IHe W HVW HW ltac:(by eexists) E2)|].
    destruct (build_tree_node (S f) D child W 1) as [[cn W1]|] eqn:Eb; [|discriminate].
    destruct (build_tree_node f D child W 1) as [[cn' W1']|] eqn:Eb'.
    - rewrite (build_mono _ _ _ _ _ Eb') in Eb. injection Eb as -> ->.
      destruct (build_visited (S f) child W 1 cn W1 (HU _ _ Ee) HW (build_mono _ _ _ _ _ Eb'))
        as [H1 H2].
      destruct (add_children (build_tree_node (S f) D) D 0 edges W1) as [[ns W2]|] eqn:Er;
        [|discriminate].
      destruct (add_children (build_tree_node f D) D 0 edges W1) as [[ns' W2']|] eqn:Er';
        [discriminate|].
      exact (IHe W1 ltac:(by transitivity W) H2 ltac:(by eexists) Er').
    - exists e, child, W. split; [exact Ee|]. split; [exact HVW|]. split; [exact HW|].
      split; [rewrite Eb; by eexists | exact Eb']. }
  destruct (add_children (build_tree_node (S f) D) D 0 (dependencies dep) ({[coordinate dep]} ∪ V))
    as [[ns W]|] eqn:E1; [|discriminate].
  destruct (add_children (build_tree_node f D) D 0 (dependencies dep) ({[coordinate dep]} ∪ V))
    as [[ns' W']|] eqn:E2; [discriminate|].
  destruct (Hch (dependencies dep) ({[coordinate dep]} ∪ V) ltac:(set_solver) ltac:(set_solver)
              ltac:(rewrite E1; by eexists) E2)
    as (e & child & W0 & Ee & H1 & H2 & Hs' & Hn').
  exists e, child, W0. split; [exact Ee|]. split; [exact H1|]. split; [exact H2|]. split.
  - exact (build_depth_some _ _ _ 1 0 Hs').
  - pose proof (build_depth f child W0 1 0) as Hd. rewrite Hn' in Hd.
    destruct (build_tree_node f D child W0 0); [discriminate | reflexivity].
Qed.

Definition link (x y : string * gset string * nat) : Prop :=
  x.1.2 ⊆ y.1.2 /\ y.2 < x.2.

Lemma tight_chain (f : nat) :
  forall dep V, coordinate dep ∈ U -> V ⊆ U -> tight f dep V ->
  exists L : list (string * gset string * nat), length L = f /\
    StronglySorted link L /\
    Forall (fun x => x.1.1 ∈ dom D /\ V ⊆ x.1.2 /\ x.1.2 ⊆ U /\ x.2 < f /\
                     exists child, D !! x.1.1 = Some child /\ tight x.2 child x.1.2) L.
Proof.
  induction f as [|f IH]; intros dep V Hc HV Hex.
  - exists []. split; [reflexivity|]. split; constructor.
  - destruct (tight_child f dep V Hc HV Hex) as (e & child & W & Ee & HVW & HW & Hexc).
    destruct (IH child W (HU _ _ Ee) HW Hexc) as (L & Hlen & Hsort & Hall).
    exists ((e, W, f) :: L). split; [simpl; lia|]. split.
    + constructor; [exact Hsort|]. eapply Forall_impl; [exact Hall|].
      intros x (_ & H1 & _ & H2 & _). split; [exact H1 | exact H2].
    + constructor.
      * simpl. split; [rewrite elem_of_dom, Ee; by eexists|]. split; [exact HVW|].
        split; [exact HW|]. split; [lia|]. exists child. split; [exact Ee | exact Hexc].
      * eapply Forall_impl; [exact Hall|]. intros x (H0 & H1 & H2 & H3 & H4).
        split; [exact H0|]. split; [by transitivity W|]. split; [exact H2|]. split; [lia | exact H4].
Qed.

Lemma tight_unique (m1 m2 : nat) dep V :
  tight m1 dep V -> tight m2 dep V -> m1 = m2.
Proof.
  intros [[r1 H1] N1] [[r2 H2] N2].
  destruct (Nat.lt_trichotomy m1 m2) as [Hlt|[Heq|Hlt]]; [|exact Heq|].
  - pose proof (build_mono_le (S m1) m2 _ _ _ _ ltac:(lia) H1). congruence.
  - pose proof (build_mono_le (S m2) m1 _ _ _ _ ltac:(lia) H2). congruence.
Qed.

Lemma chain_nodup (L : list (string * gset string * nat)) :
  StronglySorted link L ->
  Forall (fun x => exists child, D !! x.1.1 = Some child /\ tight x.2 child x.1.2) L ->
  NoDup (map (fun x => (x.1.1, size x.1.2)) L).
Proof.
  induction 1 as [|x L Hs IH Hx]; intros Hall; simpl; [constructor|].
  apply Forall_cons in Hall as [(c & Ec & Exc) Hall].
  constructor; [|exact (IH Hall)].
  intros Hin. apply list_elem_of_fmap in Hin as (y & Heq & Hy).
  rewrite Forall_forall in Hx, Hall.
  destruct (Hx y Hy) as [Hsub Hlt].
  destruct (Hall y Hy) as (c' & Ec' & Exc').
  injection Heq as He Hsz.
  assert (HW : x.1.2 = y.1.2).
  { destruct (decide (x.1.2 = y.1.2)) as [E|Hne]; [exact E|].
    exfalso. assert (Hss : x.1.2 ⊂ y.1.2) by (split; [exact Hsub | intros H; apply Hne; set_solver]).
    pose proof (subset_size _ _ Hss). lia. }
  rewrite He in Ec. rewrite Ec in Ec'. injection Ec' as <-.
  rewrite HW in Exc. pose proof (tight_unique _ _ _ _ Exc Exc'). lia.
Qed.

Lemma tight_bound (m : nat) dep V :
  coordinate dep ∈ U -> V ⊆ U -> tight m dep V -> m <= size D * S (size U).
Proof.
  intros Hc HV Hex.
  destruct (tight_chain m dep V Hc HV Hex) as (L & Hlen & Hsort & Hall).
  assert (Hnd : NoDup (map (fun x => (x.1.1, size x.1.2)) L)).
  { apply chain_nodup; [exact Hsort|]. eapply Forall_impl; [exact Hall|]. intros x (_ & _ & _ & _ & H). exact H. }
  assert (Hincl : incl (map (fun x => (x.1.1, size x.1.2)) L)
                       (list_prod (elements (dom D)) (seq 0 (S (size U))))).
  { intros p Hp. apply in_map_iff in Hp as (x & <- & Hx).
    apply list_elem_of_In in Hx. rewrite Forall_forall in Hall.
    destruct (Hall x Hx) as (Hd & _ & HxU & _).
    apply in_prod.
    - apply list_elem_of_In. by apply elem_of_elements.
    - apply in_seq. pose proof (subseteq_size _ _ HxU). lia. }
  pose proof (NoDup_incl_length (proj1 (NoDup_ListNoDup _) Hnd) Hincl) as Hle.
  rewrite length_map, length_prod, length_seq in Hle.
  rewrite <- Hlen. etransitivity; [exact Hle|].
  replace (length (elements (dom D))) with (size D); [reflexivity|].
  rewrite <- size_dom. reflexivity.
Qed.

Lemma tight_exists (f : nat) dep V :
  is_Some (build_tree_node f D dep V 0) -> exists m, S m <= f /\ tight m dep V.
Proof.
  induction f as [|f IH]; intros Hs; [by destruct Hs|].
  destruct (build_tree_node f D dep V 0) as [r0|] eqn:E0.
  - destruct (IH ltac:(by eexists)) as (m & Hm & Hex). exists m. split; [lia | exact Hex].
  - exists f. split; [lia|]. split; [exact Hs | exact E0].
Qed.

Lemma build_enough (f g : nat) dep V d r :
  coordinate dep ∈ U -> V ⊆ U -> S (size D * S (size U)) <= g ->
  build_tree_node f D dep V d = Some r -> build_tree_node g D dep V d = Some r.
Proof.
  intros Hc HV Hg E.
  destruct (tight_exists f dep V (build_depth_some _ _ _ d 0 ltac:(rewrite E; by eexists)))
    as (m & Hm & Hex).
  pose proof (tight_bound m dep V Hc HV Hex) as Hb.
  destruct (build_depth_some (S m) dep V 0 d (proj1 Hex)) as [r' E'].
  pose proof (build_mono_le _ _ _ _ _ _ Hm E') as E''. rewrite E in E''. injection E'' as <-.
  exact (build_mono_le (S m) g _ _ _ _ ltac:(lia) E').
Qed.

Lemma tree_loop_enough (f g : nat) (entries : list (string * LockedDependency)) :
  (forall k d, (k, d) ∈ entries -> coordinate d ∈ U) -> S (size D * S (size U)) <= g ->
  forall V r, V ⊆ U -> tree_loop f D entries V = Some r -> tree_loop g D entries V = Some r.
Proof.
  intros Hent Hg. induction entries as [|[k d] entries IH]; intros V r HV E; cbn [tree_loop] in *;
    [exact E|].
  assert (Hent' : forall k' d', (k', d') ∈ entries -> coordinate d' ∈ U)
    by (intros k' d' H; apply (Hent k'); rewrite elem_of_cons; tauto).
  destruct (decide (k ∈ V)) as [HkV|HkV]; [exact (IH Hent' V r HV E)|].
  assert (Hc : coordinate d ∈ U) by (apply (Hent k); rewrite elem_of_cons; tauto).
  destruct (build_tree_node f D d V 0) as [[n V1]|] eqn:Eb; [|discriminate].
  rewrite (build_enough f g d V 0 _ Hc HV Hg Eb).
  destruct (build_visited f d V 0 n V1 Hc HV Eb) as [_ HV1].
  destruct (tree_loop f D entries V1) as [ns|] eqn:Er; [|discriminate].
  rewrite (IH Hent' V1 ns HV1 Er). exact E.
Qed.

End Fuel.

Lemma size_list_to_set_le (l : list string) : size (list_to_set l : gset string) <= length l.
Proof.
  induction l as [|x l IH]; cbn [list_to_set length]; [rewrite size_empty; lia|].
  rewrite size_union_alt, size_singleton.
  pose proof (subseteq_size (list_to_set l ∖ {[x]} : gset string) (list_to_set l) ltac:(set_solver)).
  lia.
Qed.

(** A run of [get_dependency_tree] that stops, with its calls of
    [build_tree_node] nested [f] deep for any [f], returns the forest that
    [get_dependency_tree_in] returns: no run that stops nests more than
    [tree_fuel] calls, whether or not the keys of the map are the
    coordinates of their entries. *)
Theorem tree_fuel_enough (lf : LockFile) (entries : list (string * LockedDependency))
    (f : nat) (forest : list DependencyTreeNode) :
  tree_loop f (lf_dependencies lf) entries ∅ = Some forest ->
  get_dependency_tree_in lf entries = Some forest.
Proof.
  unfold get_dependency_tree_in.
  set (D := lf_dependencies lf).
  set (U := list_to_set (map (fun p => coordinate p.2) (entries ++ map_to_list D)) : gset string).
  assert (HU : forall k d, D !! k = Some d -> coordinate d ∈ U).
  { intros k d Hk. apply elem_of_list_to_set, list_elem_of_fmap. exists (k, d).
    split; [reflexivity|]. apply elem_of_app. right. by apply elem_of_map_to_list. }
  assert (Hent : forall k d, (k, d) ∈ entries -> coordinate d ∈ U).
  { intros k d Hk. apply elem_of_list_to_set, list_elem_of_fmap. exists (k, d).
    split; [reflexivity|]. apply elem_of_app. left. exact Hk. }
  assert (HsU : size U <= length entries + size D).
  { etransitivity; [apply size_list_to_set_le|].
    rewrite length_map, length_app, length_map_to_list. lia. }
  intros E. apply (tree_loop_enough D U HU f _ entries Hent); [|set_solver | exact E].
  unfold tree_fuel. fold D. nia.
Qed.

Lemma tree_fuel_enough_witness :
  exists forest,
    tree_loop 5 (lf_dependencies aliased) aliased_order ∅ = Some forest /\
    get_dependency_tree_in aliased aliased_order = Some forest /\
    map flatten forest = [["g:p:1"; "g:b:1"; "g:p:1"; "g:c:1"; "g:p:1"]] /\
    tree_loop 4 (lf_dependencies aliased) aliased_order ∅ = None.
Proof.
  eexists.
  assert (H : tree_loop 5 (lf_dependencies aliased) aliased_order ∅
              = Some (default [] (tree_loop 5 (lf_dependencies aliased) aliased_order ∅)))
    by (vm_compute; reflexivity).
  split; [exact H|]. split; [exact (tree_fuel_enough aliased aliased_order 5 _ H)|].
  split; vm_compute; reflexivity.
Defined.

End LockFuelProofs.

Module DepTreeProofs.
Import Dep DepTree DepTreeSpecs.

Lemma resolve_loop_spec (all deps : list Dependency) (V : gset string) :
  exists nodes, resolve_loop all deps V = Ok nodes /\
    NoDup (map (fun n => coordinate (dependency n)) nodes) /\
    sublist (map dependency nodes) deps /\
    (forall n, n ∈ nodes -> coordinate (dependency n) ∉ V) /\
    (forall d, d ∈ deps -> coordinate d ∈ V \/
       exists n, n ∈ nodes /\ coordinate (dependency n) = coordinate d) /\
    Forall (fun n => children n = [] /\ depth n = 0 /\
                     first_with deps (coordinate (dependency n)) = Some (dependency n)) nodes.
Proof.
  revert V. induction deps as [|dep deps IH]; intros V; cbn [resolve_loop].
  - exists []. split; [reflexivity|]. split; [constructor|]. split; [constructor|].
    split; [intros n Hn; inversion Hn|]. split; [intros d Hd; inversion Hd|]. constructor.
  - destruct (decide (coordinate dep ∈ V)) as [Hin|Hin].
    + destruct (IH V) as (ns & E & Hnd & Hsub & Hfresh & Hcov & Hall).
      exists ns. split; [exact E|]. split; [exact Hnd|].
      split; [apply (sublist_cons dep); exact Hsub|]. split; [exact Hfresh|]. split.
      * intros d. rewrite elem_of_cons. intros [->|Hd]; [tauto | exact (Hcov d Hd)].
      * rewrite Forall_forall in Hall |- *. intros n Hn.
        destruct (Hall n Hn) as (Hc & Hdp & Hf). split; [exact Hc|]. split; [exact Hdp|].
        unfold first_with in *. simpl.
        destruct (String.eqb_spec (coordinate dep) (coordinate (dependency n))) as [Heq|_];
          [|exact Hf].
        exfalso. apply (Hfresh n Hn). rewrite <- Heq. exact Hin.
    + cbn [build_dependency_tree].
      destruct (IH ({[coordinate dep]} ∪ V)) as (ns & E & Hnd & Hsub & Hfresh & Hcov & Hall).
      rewrite E. eexists. split; [reflexivity|]. simpl. split; [|split; [|split; [|split]]].
      * constructor; [|exact Hnd]. intros Hx.
        apply list_elem_of_fmap in Hx as (n & Heq & Hn). apply (Hfresh n Hn). rewrite <- Heq. set_solver.
      * apply (sublist_skip dep); exact Hsub.
      * intros n. rewrite elem_of_cons. intros [->|Hn]; [exact Hin|].
        specialize (Hfresh n Hn). set_solver.
      * intros d. rewrite elem_of_cons. intros [->|Hd].
        -- right. exists (node_new dep 0). split; [left | reflexivity].
        -- destruct (Hcov d Hd) as [Hv|(n & Hn & Hc)].
           ++ apply elem_of_union in Hv as [Hv|Hv].
              ** apply elem_of_singleton in Hv. right. exists (node_new dep 0).
                 split; [left | exact (eq_sym Hv)].
              ** left. exact Hv.
           ++ right. exists n. split; [right; exact Hn | exact Hc].
      * constructor.
        -- split; [reflexivity|]. split; [reflexivity|]. unfold first_with. simpl.
           rewrite String.eqb_refl. reflexivity.
        -- rewrite Forall_forall in Hall |- *. intros n Hn.
           destruct (Hall n Hn) as (Hc & Hdp & Hf). split; [exact Hc|]. split; [exact Hdp|].
           unfold first_with in *. simpl.
           destruct (String.eqb_spec (coordinate dep) (coordinate (dependency n))) as [Heq|_];
             [|exact Hf].
           exfalso. apply (Hfresh n Hn). rewrite <- Heq. set_solver.
Qed.

(** [dependency::resolve_dependencies] never fails.  It returns one node per
    distinct coordinate of its input, in first-occurrence order; each node
    holds the first dependency with that coordinate, at depth 0, with no
    children. *)
Theorem resolve_dependencies_dedup (deps : list Dependency) :
  exists nodes, resolve_dependencies deps = Ok nodes /\
    NoDup (map (fun n => coordinate (dependency n)) nodes) /\
    sublist (map dependency nodes) deps /\
    (forall d, d ∈ deps -> exists n, n ∈ nodes /\ coordinate (dependency n) = coordinate d) /\
    Forall (fun n => children n = [] /\ depth n = 0 /\
                     first_with deps (coordinate (dependency n)) = Some (dependency n)) nodes.
Proof.
  destruct (resolve_loop_spec deps deps ∅) as (ns & E & Hnd & Hsub & _ & Hcov & Hall).
  exists ns. split; [exact E|]. split; [exact Hnd|]. split; [exact Hsub|]. split; [|exact Hall].
  intros d Hd. destruct (Hcov d Hd) as [H|H]; [set_solver | exact H].
Qed.

End DepTreeProofs.

Module ResolveMoreProofs.
Import Dep Resolve ResolveSpecs.

(** One call from a state with an empty [in_progress]. *)
Lemma resolve_dependency_step (d : Dependency) (s : DependencyResolver) :
  in_progress s = ∅ ->
  exists s1,
    resolve_dependency d s = (Ok [default d (resolved s1 !! coordinate d)], s1) /\
    in_progress s1 = ∅ /\
    resolved s1 = match resolved s !! coordinate d with
                  | Some _ => resolved s
                  | None => <[coordinate d := d]> (resolved s)
                  end.
Proof.
  intros Hip. unfold resolve_dependency.
  destruct (resolved s !! coordinate d) as [r|] eqn:Er.
  - exists s. rewrite Er. split; [reflexivity|]. split; [exact Hip | reflexivity].
  - rewrite Hip, decide_False by set_solver. simpl. eexists. split.
    + f_equal. simpl. rewrite lookup_insert_eq. reflexivity.
    + cbn. split; [set_solver | reflexivity].
Qed.

Lemma resolve_dependencies_first (specs : list Dependency) (s : DependencyResolver) :
  in_progress s = ∅ ->
  exists s',
    resolve_dependencies specs s
      = (Ok (map (fun d => default d (resolved s' !! coordinate d)) specs), s') /\
    in_progress s' = ∅ /\
    forall k, resolved s' !! k = match resolved s !! k with
                                 | Some x => Some x
                                 | None => first_spec specs k
                                 end.
Proof.
  revert s. induction specs as [|d specs IH]; intros s Hip.
  - exists s. split; [reflexivity|]. split; [exact Hip|].
    intros k. destruct (resolved s !! k); reflexivity.
  - destruct (resolve_dependency_step d s Hip) as (s1 & E1 & Hip1 & Hr1).
    destruct (IH s1 Hip1) as (s' & E' & Hip' & Hr').
    assert (Hk : forall k, resolved s' !! k = match resolved s !! k with
                                             | Some x => Some x
                                             | None => first_spec (d :: specs) k
                                             end).
    { intros k. rewrite Hr', Hr1. unfold first_spec. simpl.
      destruct (resolved s !! coordinate d) as [r|] eqn:Er.
      - destruct (resolved s !! k) as [x|] eqn:Ek; [reflexivity|].
        destruct (String.eqb_spec (coordinate d) k) as [<-|_]; [congruence | reflexivity].
      - destruct (String.eqb_spec (coordinate d) k) as [<-|Hne].
        + rewrite lookup_insert_eq, Er. reflexivity.
        + rewrite lookup_insert_ne by exact Hne. reflexivity. }
    exists s'. simpl. rewrite E1, E'. split; [|split; [exact Hip' | exact Hk]].
    do 3 f_equal.
    assert (Hs1 : is_Some (resolved s1 !! coordinate d)).
    { rewrite Hr1. destruct (resolved s !! coordinate d) eqn:Er.
      - rewrite Er. by eexists.
      - rewrite lookup_insert_eq. by eexists. }
    destruct Hs1 as [x Hx]. rewrite Hx, Hr', Hx. reflexivity.
Qed.

(** From a fresh resolver, [resolve_dependencies] never fails.  The entry
    memoised for a key is the first requested spec with that coordinate,
    and each requested spec is answered with that first spec (a later spec
    with the same coordinate but another scope is replaced by it). *)
Theorem resolve_keeps_first_spec (specs : list Dependency) :
  exists s',
    resolve_dependencies specs new
      = (Ok (map (fun d => default d (first_spec specs (coordinate d))) specs), s') /\
    forall k, resolved s' !! k = first_spec specs k.
Proof.
  destruct (resolve_dependencies_first specs new eq_refl) as (s' & E & _ & Hk0).
  assert (Hk : forall k, resolved s' !! k = first_spec specs k)
    by (intros k; rewrite Hk0; reflexivity).
  exists s'. split.
  - rewrite E. f_equal. f_equal. apply map_ext. intros d. rewrite Hk. reflexivity.
  - exact Hk.
Qed.

(** Facts of any successful run. *)
Lemma resolve_dependency_ok (d : Dependency) (s s1 : DependencyResolver) r :
  resolve_dependency d s = (Ok r, s1) ->
  r = [default d (resolved s1 !! coordinate d)] /\ resolved s ⊆ resolved s1 /\
  is_Some (resolved s1 !! coordinate d).
Proof.
  unfold resolve_dependency.
  destruct (resolved s !! coordinate d) as [x|] eqn:Er.
  - intros [= <- <-]. rewrite Er. split; [reflexivity|]. split; [reflexivity|]. by eexists.
  - destruct (decide (coordinate d ∈ in_progress s)); [discriminate|].
    simpl. intros [= <- <-]. cbn. rewrite lookup_insert_eq. split; [reflexivity|].
    split; [|by eexists]. by apply insert_subseteq.
Qed.

Lemma resolve_dependencies_ok (specs : list Dependency) (s s' : DependencyResolver) r :
  resolve_dependencies specs s = (Ok r, s') ->
  r = map (fun d => default d (resolved s' !! coordinate d)) specs /\
  resolved s ⊆ resolved s' /\
  forall d, d ∈ specs -> is_Some (resolved s' !! coordinate d).
Proof.
  revert s r. induction specs as [|d specs IH]; intros s r E; simpl in E.
  - injection E as <- <-. split; [reflexivity|]. split; [reflexivity|].
    intros d Hd. inversion Hd.
  - destruct (resolve_dependency d s) as [[rd|e] s1] eqn:E1; [|discriminate].
    destruct (resolve_dependencies specs s1) as [[rs|e] s2] eqn:E2; [|discriminate].
    injection E as <- <-.
    destruct (resolve_dependency_ok d s s1 rd E1) as (-> & Hsub1 & [x Hx]).
    destruct (IH s1 rs E2) as (-> & Hsub2 & Hall).
    assert (Hx' : resolved s2 !! coordinate d = Some x) by exact (lookup_weaken _ _ _ _ Hx Hsub2).
    split; [simpl; rewrite Hx, Hx'; reflexivity|].
    split; [by transitivity (resolved s1)|].
    intros d'. rewrite elem_of_cons. intros [->|Hd']; [by eexists | exact (Hall d' Hd')].
Qed.

Lemma resolve_dependencies_all_hits (specs : list Dependency) (s : DependencyResolver) :
  (forall d, d ∈ specs -> is_Some (resolved s !! coordinate d)) ->
  resolve_dependencies specs s
    = (Ok (map (fun d => default d (resolved s !! coordinate d)) specs), s).
Proof.
  induction specs as [|d specs IH]; intros Hall; [reflexivity|].
  simpl. unfold resolve_dependency at 1.
  destruct (Hall d (proj2 (elem_of_cons _ _ _) (or_introl eq_refl))) as [x Hx].
  rewrite Hx. rewrite IH; [reflexivity|].
  intros d' Hd'. apply Hall. rewrite elem_of_cons. tauto.
Qed.

(** A successful run leaves every requested key memoised, so running the
    same specs again returns the same list and leaves the state (the log
    of expansions included) unchanged: nothing is expanded twice. *)
Theorem resolve_idempotent (specs : list Dependency) (s s' : DependencyResolver) r :
  resolve_dependencies specs s = (Ok r, s') ->
  resolve_dependencies specs s' = (Ok r, s').
Proof.
  intros E. destruct (resolve_dependencies_ok specs s s' r E) as (-> & _ & Hall).
  exact (resolve_dependencies_all_hits specs s' Hall).
Qed.

Lemma resolve_idempotent_witness :
  exists r s',
    resolve_dependencies [ab1; xy1; ab1] new = (Ok r, s') /\
    resolve_dependencies [ab1; xy1; ab1] s' = (Ok r, s').
Proof.
  exists [ab1; xy1; ab1], (snd (resolve_dependencies [ab1; xy1; ab1] new)).
  assert (H : resolve_dependencies [ab1; xy1; ab1] new
              = (Ok [ab1; xy1; ab1], snd (resolve_dependencies [ab1; xy1; ab1] new)))
    by reflexivity.
  split; [exact H | exact (resolve_idempotent _ _ _ _ H)].
Defined.

Lemma tree_loop_leaves (values : list Dependency) (V : gset string) :
  NoDup (map coordinate values) -> (forall d, d ∈ values -> coordinate d ∉ V) ->
  tree_loop values V = map leaf values.
Proof.
  revert V. induction values as [|d values IH]; intros V Hnd Hfresh; [reflexivity|].
  simpl. apply NoDup_cons in Hnd as [Hd Hnd].
  rewrite decide_False by (apply Hfresh; left). simpl. f_equal. apply IH; [exact Hnd|].
  intros d' Hd'. rewrite elem_of_union, elem_of_singleton. intros [Heq|Hv].
  - apply Hd. rewrite <- Heq. apply list_elem_of_fmap. exists d'. split; [reflexivity | exact Hd'].
  - apply (Hfresh d'); [right; exact Hd' | exact Hv].
Qed.

Lemma coordinates_of_values (l : list (string * Dependency)) :
  (forall k d, (k, d) ∈ l -> coordinate d = k) -> map coordinate l.*2 = l.*1.
Proof.
  induction l as [|[k d] l IH]; intros H; [reflexivity|]. simpl. f_equal.
  - apply H. left.
  - apply IH. intros k' d' Hin. apply H. right. exact Hin.
Qed.

(** When every entry of [resolved] is stored under its own coordinate (as
    [resolve_dependency] stores it), the resolver's [get_dependency_tree]
    returns one leaf at depth 0 per entry, in iteration order. *)
Theorem resolver_tree_is_flat (s : DependencyResolver) (values : list Dependency) :
  (forall k d, resolved s !! k = Some d -> coordinate d = k) ->
  values ≡ₚ (map_to_list (resolved s)).*2 ->
  get_dependency_tree_in values = map leaf values.
Proof.
  intros Hkeys Hperm. unfold get_dependency_tree_in. apply tree_loop_leaves; [|set_solver].
  assert (Hc : map coordinate (map_to_list (resolved s)).*2 = (map_to_list (resolved s)).*1).
  { apply coordinates_of_values. intros k d Hin. apply Hkeys. by apply elem_of_map_to_list. }
  assert (Hp : map coordinate values ≡ₚ map coordinate (map_to_list (resolved s)).*2)
    by (apply Permutation_map, Hperm).
  rewrite Hp, Hc. apply NoDup_fst_map_to_list.
Qed.

Lemma resolver_tree_is_flat_witness :
  let s := snd (resolve_dependencies [ab1; xy1; ab2] new) in
  (forall k d, resolved s !! k = Some d -> coordinate d = k) /\
  get_dependency_tree s = map leaf (map snd (map_to_list (resolved s))).
Proof.
  intros s.
  assert (Hkeys : forall k d, resolved s !! k = Some d -> coordinate d = k).
  { change (map_Forall (fun k d => coordinate d = k) (resolved s)).
    apply (bool_decide_unpack _). vm_compute. reflexivity. }
  split; [exact Hkeys|].
  exact (resolver_tree_is_flat s _ Hkeys (reflexivity _)).
Defined.

End ResolveMoreProofs.

Module AddEditProofs.
Import Add AddEdit AddEditSpecs.
Local Open Scope list_scope.

Section Edit.
Variable trim : string -> string.

Lemma vec_insert_app {A} (pre post : list A) (x : A) :
  vec_insert (length pre) x (pre ++ post) = Some (pre ++ x :: post).
Proof. induction pre as [|y pre IH]; simpl; [reflexivity|]. by rewrite IH. Qed.

Lemma find_section_spec (header : string) (lines : list string) (i : nat) :
  (exists pre h post, lines = pre ++ h :: post /\ trim h = header /\
     Forall (fun l => trim l <> header) pre /\
     find_section trim header lines i = Some (i + length pre)) \/
  (Forall (fun l => trim l <> header) lines /\ find_section trim header lines i = None).
Proof.
  revert i. induction lines as [|l lines IH]; intros i; simpl.
  - right. split; [constructor | reflexivity].
  - destruct (String.eqb_spec (trim l) header) as [Hl|Hl].
    + left. exists [], l, lines. split; [reflexivity|]. split; [exact Hl|].
      split; [constructor|]. simpl. rewrite Nat.add_0_r. reflexivity.
    + destruct (IH (S i)) as [(pre & h & post & -> & Hh & Hpre & E)|[Hall E]].
      * left. exists (l :: pre), h, post. split; [reflexivity|]. split; [exact Hh|].
        split; [constructor; assumption|]. rewrite E. f_equal. simpl. lia.
      * right. split; [constructor; assumption | exact E].
Qed.

(** [add_to_jx_config] never panics and removes no line.  It inserts the
    dependency line right after the first line that trims to
    [[dependencies]]; without such a line it appends the header and the
    dependency line.  An existing line for the same dependency is not
    looked for. *)
Theorem jx_inserts_after_header (lines : list string) (dep_info : DependencyInfo) :
  (exists pre h post, lines = pre ++ h :: post /\ trim h = "[dependencies]" /\
     Forall (fun l => trim l <> "[dependencies]") pre /\
     add_to_jx_config_lines trim lines dep_info = Some (pre ++ h :: jx_dep_line dep_info :: post)) \/
  (Forall (fun l => trim l <> "[dependencies]") lines /\
   add_to_jx_config_lines trim lines dep_info
     = Some (lines ++ ["[dependencies]"; jx_dep_line dep_info])).
Proof.
  unfold add_to_jx_config_lines.
  destruct (find_section_spec "[dependencies]" lines 0) as [(pre & h & post & -> & Hh & Hpre & E)|[Hall E]];
    rewrite E.
  - left. exists pre, h, post. split; [reflexivity|]. split; [exact Hh|]. split; [exact Hpre|].
    replace (0 + length pre + 1) with (length (pre ++ [h])) by (rewrite length_app; simpl; lia).
    replace (pre ++ h :: post) with ((pre ++ [h]) ++ post) by (rewrite <- app_assoc; reflexivity).
    rewrite vec_insert_app. rewrite <- app_assoc. reflexivity.
  - right. split; [exact Hall|].
    replace (length (lines ++ ["[dependencies]"]) - 1 + 1)
      with (length (lines ++ ["[dependencies]"])) by (rewrite length_app; simpl; lia).
    rewrite <- (app_nil_r (lines ++ ["[dependencies]"])) at 2.
    rewrite vec_insert_app. rewrite <- app_assoc. reflexivity.
Qed.

(** [add_to_gradle] never panics.  It inserts the dependency line right
    after the first line that trims to [dependencies {], or fails when no
    line does. *)
Theorem gradle_inserts_after_header (lines : list string) (dep_info : DependencyInfo)
    (scope : string) :
  (exists pre h post, lines = pre ++ h :: post /\ trim h = "dependencies {" /\
     Forall (fun l => trim l <> "dependencies {") pre /\
     add_to_gradle_lines trim lines dep_info scope
       = Some (Ok (pre ++ h :: gradle_dep_line dep_info scope :: post))) \/
  (Forall (fun l => trim l <> "dependencies {") lines /\
   add_to_gradle_lines trim lines dep_info scope = Some (Err MissingDependencies)).
Proof.
  unfold add_to_gradle_lines.
  destruct (find_section_spec "dependencies {" lines 0) as [(pre & h & post & -> & Hh & Hpre & E)|[Hall E]];
    rewrite E.
  - left. exists pre, h, post. split; [reflexivity|]. split; [exact Hh|]. split; [exact Hpre|].
    replace (0 + length pre + 1) with (length (pre ++ [h])) by (rewrite length_app; simpl; lia).
    replace (pre ++ h :: post) with ((pre ++ [h]) ++ post) by (rewrite <- app_assoc; reflexivity).
    rewrite vec_insert_app. simpl. rewrite <- app_assoc. reflexivity.
  - right. split; [exact Hall | reflexivity].
Qed.

Lemma maven_scan_no_open (lines : list string) (i : nat) (s e : nat) :
  Forall (fun l => trim l <> "<dependencies>") lines ->
  maven_scan trim lines i (false, s, e) = (false, s, e).
Proof.
  revert i. induction lines as [|l lines IH]; intros i Hall; [reflexivity|].
  apply Forall_cons in Hall as [Hl Hall]. simpl.
  destruct (String.eqb_spec (trim l) "<dependencies>") as [H|_]; [contradiction|].
  simpl. apply IH, Hall.
Qed.

Lemma maven_scan_app_no_close (pre rest : list string) (i : nat) (b : bool) (s e : nat) :
  Forall (fun l => trim l <> "</dependencies>") pre ->
  exists s',
    maven_scan trim (pre ++ rest) i (b, s, e)
    = maven_scan trim rest (i + length pre)
        (b || existsb (fun l => String.eqb (trim l) "<dependencies>") pre, s', e).
Proof.
  revert i b s. induction pre as [|l pre IH]; intros i b s Hall.
  - exists s. simpl. rewrite Nat.add_0_r, orb_false_r. reflexivity.
  - apply Forall_cons in Hall as [Hl Hall]. simpl.
    destruct (String.eqb_spec (trim l) "<dependencies>") as [Ho|Ho].
    + destruct (IH (S i) true i Hall) as [s' E]. exists s'. rewrite E.
      replace (S i + length pre) with (i + S (length pre)) by lia.
      rewrite orb_true_r. reflexivity.
    + destruct (String.eqb_spec (trim l) "</dependencies>") as [Hc|_]; [contradiction|].
      rewrite andb_false_r.
      destruct (IH (S i) b s Hall) as [s' E]. exists s'. rewrite E.
      replace (S i + length pre) with (i + S (length pre)) by lia. reflexivity.
Qed.

Lemma existsb_open (lines : list string) :
  Exists (fun l => trim l = "<dependencies>") lines ->
  existsb (fun l => String.eqb (trim l) "<dependencies>") lines = true.
Proof.
  intros H. apply existsb_exists. apply Exists_exists in H as (l & Hl & Ht).
  exists l. split; [by apply list_elem_of_In|]. by apply String.eqb_eq.
Qed.

(** [add_to_maven] fails when no line trims to [<dependencies>]. *)
Theorem maven_missing_section (lines : list string) (dep_info : DependencyInfo) (scope : string) :
  Forall (fun l => trim l <> "<dependencies>") lines ->
  add_to_maven_lines trim lines dep_info scope = Some (Err MissingDependencies).
Proof.
  intros Hall. unfold add_to_maven_lines. rewrite maven_scan_no_open by exact Hall.
  reflexivity.
Qed.

Lemma maven_scan_app_no_open (pre rest : list string) (i s e : nat) :
  Forall (fun l => trim l <> "<dependencies>") pre ->
  maven_scan trim (pre ++ rest) i (false, s, e)
  = maven_scan trim rest (i + length pre) (false, s, e).
Proof.
  revert i. induction pre as [|l pre IH]; intros i Hall.
  - simpl. rewrite Nat.add_0_r. reflexivity.
  - apply Forall_cons in Hall as [Hl Hall]. simpl.
    destruct (String.eqb_spec (trim l) "<dependencies>") as [H|_]; [contradiction|].
    simpl. rewrite IH by exact Hall. f_equal. lia.
Qed.

(** [add_to_maven] inserts the dependency block right before the first
    [</dependencies>] line that follows the first [<dependencies>] line;
    [</dependencies>] lines before that [<dependencies>] line are passed
    over. *)
Theorem maven_inserts_before_close (pre mid post : list string) (o c : string)
    (dep_info : DependencyInfo) (scope : string) :
  Forall (fun l => trim l <> "<dependencies>") pre ->
  trim o = "<dependencies>" ->
  Forall (fun l => trim l <> "</dependencies>") mid ->
  trim c = "</dependencies>" ->
  add_to_maven_lines trim (pre ++ o :: mid ++ c :: post) dep_info scope
    = Some (Ok (pre ++ o :: mid ++ maven_dep_xml dep_info scope :: c :: post)).
Proof.
  intros Hpre Ho Hmid Hc. unfold add_to_maven_lines.
  rewrite maven_scan_app_no_open by exact Hpre.
  cbn [maven_scan]. rewrite Ho, String.eqb_refl.
  destruct (maven_scan_app_no_close mid (c :: post) (S (0 + length pre)) true (0 + length pre) 0 Hmid)
    as [s' E].
  rewrite E. cbn [maven_scan orb]. rewrite Hc. cbn -[vec_insert length app].
  replace (S (length pre + length mid)) with (length (pre ++ o :: mid))
    by (rewrite length_app; simpl; lia).
  replace (pre ++ o :: mid ++ c :: post) with ((pre ++ o :: mid) ++ c :: post)
    by (rewrite <- app_assoc; reflexivity).
  rewrite vec_insert_app. rewrite <- app_assoc. reflexivity.
Qed.

(** When a [<dependencies>] line has no closing [</dependencies>] line,
    [dependencies_end] keeps its initial 0 and [add_to_maven] inserts the
    dependency block as the first line of the file. *)
Theorem maven_unclosed_inserts_at_top (lines : list string) (dep_info : DependencyInfo)
    (scope : string) :
  Exists (fun l => trim l = "<dependencies>") lines ->
  Forall (fun l => trim l <> "</dependencies>") lines ->
  add_to_maven_lines trim lines dep_info scope
    = Some (Ok (maven_dep_xml dep_info scope :: lines)).
Proof.
  intros Hopen Hall. unfold add_to_maven_lines.
  destruct (maven_scan_app_no_close lines [] 0 false 0 0 Hall) as [s' E].
  rewrite app_nil_r in E. rewrite E, existsb_open by exact Hopen. reflexivity.
Qed.

End Edit.

Lemma maven_missing_section_witness :
  Forall (fun l => trim_spaces l <> "<dependencies>") ["<project>"; "</project>"] /\
  add_to_maven_lines trim_spaces ["<project>"; "</project>"] sample_info "compile"
    = Some (Err MissingDependencies).
Proof.
  assert (H : Forall (fun l => trim_spaces l <> "<dependencies>") ["<project>"; "</project>"])
    by (repeat constructor; vm_compute; discriminate).
  split; [exact H | exact (maven_missing_section trim_spaces _ _ _ H)].
Defined.

Lemma maven_inserts_before_close_witness :
  add_to_maven_lines trim_spaces
    (["<project>"; "</dependencies>"] ++ "  <dependencies>" ::
     ["    <dependency/>"] ++ "  </dependencies>" :: ["</project>"])
    sample_info "compile"
  = Some (Ok (["<project>"; "</dependencies>"] ++ "  <dependencies>" ::
              ["    <dependency/>"] ++ maven_dep_xml sample_info "compile" ::
              "  </dependencies>" :: ["</project>"])).
Proof.
  apply maven_inserts_before_close.
  - repeat constructor; vm_compute; discriminate.
  - vm_compute. reflexivity.
  - repeat constructor; vm_compute; discriminate.
  - vm_compute. reflexivity.
Defined.

Lemma maven_unclosed_inserts_at_top_witness :
  add_to_maven_lines trim_spaces ["<project>"; "  <dependencies>"; "</project>"]
    sample_info "compile"
  = Some (Ok (maven_dep_xml sample_info "compile" ::
              ["<project>"; "  <dependencies>"; "</project>"])).
Proof.
  apply maven_unclosed_inserts_at_top.
  - apply Exists_cons_tl, Exists_cons_hd. vm_compute. reflexivity.
  - repeat constructor; vm_compute; discriminate.
Defined.

End AddEditProofs.
